(** * A file-backed document store: log format, query predicates, mutations

    Shallow embedding of [src/exercises/exercise-15/database.ts] (class
    [Database]) together with the pieces of the JavaScript runtime it calls
    ([JSON.stringify], [JSON.parse], [String.prototype.split], [trim],
    [RegExp], [Array.prototype.sort]).

    Text is a list of code units restricted to the range 0..255 ([ascii]);
    numbers are integers ([Z]). *)

From Stdlib Require Import String Ascii List ZArith NArith Bool Lia Arith.
From Stdlib Require DecimalFacts DecimalN.
From Stdlib Require Import Permutation Sorted.
Import ListNotations.

Local Open Scope list_scope.
Local Open Scope Z_scope.

(** ** Text *)

Definition str := list ascii.

Definition chars (s : string) : str := list_ascii_of_string s.

Definition dquote : ascii := "034"%char.
Definition newline : ascii := "010"%char.
Definition backslash : ascii := "\"%char.

Definition code (c : ascii) : N := N_of_ascii c.

Fixpoint str_eqb (a b : str) : bool :=
  match a, b with
  | [], [] => true
  | x :: a', y :: b' => Ascii.eqb x y && str_eqb a' b'
  | _, _ => false
  end.

(** [s.startsWith(p)] followed by [s.substr(p.length)]. *)
Fixpoint strip_prefix (p s : str) : option str :=
  match p with
  | [] => Some s
  | x :: p' =>
      match s with
      | [] => None
      | y :: s' => if Ascii.eqb x y then strip_prefix p' s' else None
      end
  end.

(** [Array.prototype.join]. *)
Fixpoint join (sep : str) (l : list str) : str :=
  match l with
  | [] => []
  | [x] => x
  | x :: rest => x ++ sep ++ join sep rest
  end.

(** ** JSON values *)

Unset Elimination Schemes.

Inductive json : Type :=
| JNull
| JBool (b : bool)
| JNum (n : Z)
| JStr (s : str)
| JArr (items : list json)
| JObj (members : list (str * json)).

Set Elimination Schemes.

(** A JavaScript object has each own key once; the association list of an
    object lists its members in property enumeration order. *)
Fixpoint wf_json (v : json) : Prop :=
  match v with
  | JArr items => (fix all (l : list json) : Prop :=
                     match l with
                     | [] => True
                     | x :: l' => wf_json x /\ all l'
                     end) items
  | JObj members =>
      NoDup (map fst members) /\
      (fix all (l : list (str * json)) : Prop :=
         match l with
         | [] => True
         | kv :: l' => wf_json (snd kv) /\ all l'
         end) members
  | _ => True
  end.

(** *** Numbers: decimal text of an integer *)

Fixpoint uint_chars (u : Decimal.uint) : str :=
  match u with
  | Decimal.Nil => []
  | Decimal.D0 u' => "0"%char :: uint_chars u'
  | Decimal.D1 u' => "1"%char :: uint_chars u'
  | Decimal.D2 u' => "2"%char :: uint_chars u'
  | Decimal.D3 u' => "3"%char :: uint_chars u'
  | Decimal.D4 u' => "4"%char :: uint_chars u'
  | Decimal.D5 u' => "5"%char :: uint_chars u'
  | Decimal.D6 u' => "6"%char :: uint_chars u'
  | Decimal.D7 u' => "7"%char :: uint_chars u'
  | Decimal.D8 u' => "8"%char :: uint_chars u'
  | Decimal.D9 u' => "9"%char :: uint_chars u'
  end.

(** [Number.prototype.toString] on an integer, digit by digit: the text
    the code prints for the safe integers ([safe_number] below). *)
Definition number_to_string (n : Z) : str :=
  if n <? 0 then "-"%char :: uint_chars (N.to_uint (Z.abs_N n))
  else uint_chars (N.to_uint (Z.abs_N n)).

(** *** Strings: [QuoteJSONString] *)

Definition hex_char (d : N) : ascii :=
  if (d <? 10)%N then ascii_of_N (48 + d) else ascii_of_N (87 + d).

Definition escape_char (c : ascii) : str :=
  if Ascii.eqb c dquote then [backslash; dquote]
  else if Ascii.eqb c backslash then [backslash; backslash]
  else if Ascii.eqb c "008"%char then [backslash; "b"%char]
  else if Ascii.eqb c "012"%char then [backslash; "f"%char]
  else if Ascii.eqb c "010"%char then [backslash; "n"%char]
  else if Ascii.eqb c "013"%char then [backslash; "r"%char]
  else if Ascii.eqb c "009"%char then [backslash; "t"%char]
  else if (code c <? 32)%N then
    [backslash; "u"%char; "0"%char; "0"%char;
     hex_char (code c / 16); hex_char (code c mod 16)]
  else [c].

Definition quote (s : str) : str :=
  dquote :: flat_map escape_char s ++ [dquote].

(** *** [JSON.stringify] *)

Fixpoint stringify (v : json) : str :=
  match v with
  | JNull => chars "null"
  | JBool true => chars "true"
  | JBool false => chars "false"
  | JNum n => number_to_string n
  | JStr s => quote s
  | JArr items =>
      "["%char :: join [","%char] (map stringify items) ++ ["]"%char]
  | JObj members =>
      "{"%char ::
        join [","%char]
          (map (fun kv => quote (fst kv) ++ ":"%char :: stringify (snd kv))
               members)
        ++ ["}"%char]
  end.

(** *** [JSON.parse] *)

Definition is_ws (c : ascii) : bool :=
  Ascii.eqb c " "%char || Ascii.eqb c "009"%char ||
  Ascii.eqb c "010"%char || Ascii.eqb c "013"%char.

Fixpoint skip_ws (s : str) : str :=
  match s with
  | c :: r => if is_ws c then skip_ws r else s
  | [] => []
  end.

Definition digit_of (c : ascii) : option (Decimal.uint -> Decimal.uint) :=
  if Ascii.eqb c "0"%char then Some Decimal.D0
  else if Ascii.eqb c "1"%char then Some Decimal.D1
  else if Ascii.eqb c "2"%char then Some Decimal.D2
  else if Ascii.eqb c "3"%char then Some Decimal.D3
  else if Ascii.eqb c "4"%char then Some Decimal.D4
  else if Ascii.eqb c "5"%char then Some Decimal.D5
  else if Ascii.eqb c "6"%char then Some Decimal.D6
  else if Ascii.eqb c "7"%char then Some Decimal.D7
  else if Ascii.eqb c "8"%char then Some Decimal.D8
  else if Ascii.eqb c "9"%char then Some Decimal.D9
  else None.

Definition is_digit (c : ascii) : bool :=
  match digit_of c with Some _ => true | None => false end.

Fixpoint take_digits (s : str) : Decimal.uint * str :=
  match s with
  | [] => (Decimal.Nil, [])
  | c :: r =>
      match digit_of c with
      | Some d => let (u, r') := take_digits r in (d u, r')
      | None => (Decimal.Nil, s)
      end
  end.

(** The integer part of a JSON number: a lone [0], or a run of digits that
    does not start with [0]. *)
Definition parse_int_part (s : str) : option (N * str) :=
  match s with
  | [] => None
  | c :: r =>
      if Ascii.eqb c "0"%char then Some (0%N, r)
      else if is_digit c then
        let (u, r') := take_digits s in Some (N.of_uint u, r')
      else None
  end.

(** A fraction or an exponent makes a number that is not an integer
    literal; such text has no value in this model. *)
Definition starts_fraction (s : str) : bool :=
  match s with
  | c :: _ => Ascii.eqb c "."%char || Ascii.eqb c "e"%char || Ascii.eqb c "E"%char
  | [] => false
  end.

(** The integer that an integer literal denotes.  It is the number the code
    reads for the safe integers ([safe_number] below); a longer literal is
    read by the code as the nearest double. *)
Definition parse_number (s : str) : option (Z * str) :=
  let signed (neg : bool) (t : str) :=
    match parse_int_part t with
    | Some (n, r) =>
        if starts_fraction r then None
        else Some (if neg then - Z.of_N n else Z.of_N n, r)
    | None => None
    end in
  match s with
  | c :: r => if Ascii.eqb c "-"%char then signed true r else signed false s
  | [] => None
  end.

Definition hex_val (c : ascii) : option N :=
  let n := code c in
  if ((48 <=? n) && (n <=? 57))%N then Some (n - 48)%N
  else if ((97 <=? n) && (n <=? 102))%N then Some (n - 87)%N
  else if ((65 <=? n) && (n <=? 70))%N then Some (n - 55)%N
  else None.

Definition hex4 (a b c d : ascii) : option N :=
  match hex_val a, hex_val b, hex_val c, hex_val d with
  | Some x, Some y, Some z, Some w => Some (((x * 16 + y) * 16 + z) * 16 + w)%N
  | _, _, _, _ => None
  end.

Definition unescape (e : ascii) : option ascii :=
  if Ascii.eqb e dquote then Some dquote
  else if Ascii.eqb e backslash then Some backslash
  else if Ascii.eqb e "/"%char then Some "/"%char
  else if Ascii.eqb e "b"%char then Some "008"%char
  else if Ascii.eqb e "f"%char then Some "012"%char
  else if Ascii.eqb e "n"%char then Some "010"%char
  else if Ascii.eqb e "r"%char then Some "013"%char
  else if Ascii.eqb e "t"%char then Some "009"%char
  else None.

Definition cons_fst {A B : Type} (x : A) (o : option (list A * B))
  : option (list A * B) :=
  match o with
  | Some (l, r) => Some (x :: l, r)
  | None => None
  end.

(** The text after an opening quote, up to the closing one.  A [\u] escape
    above 255 denotes a code unit outside this model's text. *)
Fixpoint parse_string_body (s : str) : option (str * str) :=
  match s with
  | [] => None
  | c :: r =>
      if Ascii.eqb c dquote then Some ([], r)
      else if Ascii.eqb c backslash then
        match r with
        | [] => None
        | e :: r1 =>
            match unescape e with
            | Some x => cons_fst x (parse_string_body r1)
            | None =>
                if Ascii.eqb e "u"%char then
                  match r1 with
                  | h1 :: h2 :: h3 :: h4 :: r2 =>
                      match hex4 h1 h2 h3 h4 with
                      | Some n =>
                          if (n <? 256)%N
                          then cons_fst (ascii_of_N n) (parse_string_body r2)
                          else None
                      | None => None
                      end
                  | _ => None
                  end
                else None
            end
        end
      else if (code c <? 32)%N then None
      else cons_fst c (parse_string_body r)
  end.

(** Property definition while parsing an object: a repeated key keeps its
    first position and takes the last value.  Members are kept in the
    order of their definition, which is the order of enumeration for keys
    that are not integer indices ([index_key] below). *)
Fixpoint obj_set (k : str) (v : json) (m : list (str * json))
  : list (str * json) :=
  match m with
  | [] => [(k, v)]
  | (k', v') :: m' =>
      if str_eqb k k' then (k', v) :: m' else (k', v') :: obj_set k v m'
  end.

Definition obj_of_members (l : list (str * json)) : list (str * json) :=
  fold_left (fun m kv => obj_set (fst kv) (snd kv) m) l [].

Fixpoint parse_value (fuel : nat) (s : str) : option (json * str) :=
  match fuel with
  | O => None
  | S f =>
      match skip_ws s with
      | [] => None
      | c :: r =>
          if Ascii.eqb c dquote then
            match parse_string_body r with
            | Some (x, r') => Some (JStr x, r')
            | None => None
            end
          else if Ascii.eqb c "["%char then
            match skip_ws r with
            | c' :: r' =>
                if Ascii.eqb c' "]"%char then Some (JArr [], r')
                else match parse_elements f r with
                     | Some (l, r'') => Some (JArr l, r'')
                     | None => None
                     end
            | [] => None
            end
          else if Ascii.eqb c "{"%char then
            match skip_ws r with
            | c' :: r' =>
                if Ascii.eqb c' "}"%char then Some (JObj [], r')
                else match parse_members f r with
                     | Some (l, r'') => Some (JObj (obj_of_members l), r'')
                     | None => None
                     end
            | [] => None
            end
          else if Ascii.eqb c "n"%char then
            match strip_prefix (chars "ull") r with
            | Some r' => Some (JNull, r')
            | None => None
            end
          else if Ascii.eqb c "t"%char then
            match strip_prefix (chars "rue") r with
            | Some r' => Some (JBool true, r')
            | None => None
            end
          else if Ascii.eqb c "f"%char then
            match strip_prefix (chars "alse") r with
            | Some r' => Some (JBool false, r')
            | None => None
            end
          else
            match parse_number (c :: r) with
            | Some (n, r') => Some (JNum n, r')
            | None => None
            end
      end
  end

with parse_elements (fuel : nat) (s : str) : option (list json * str) :=
  match fuel with
  | O => None
  | S f =>
      match parse_value f s with
      | Some (v, r) =>
          match skip_ws r with
          | c :: r' =>
              if Ascii.eqb c ","%char then cons_fst v (parse_elements f r')
              else if Ascii.eqb c "]"%char then Some ([v], r')
              else None
          | [] => None
          end
      | None => None
      end
  end

with parse_members (fuel : nat) (s : str)
  : option (list (str * json) * str) :=
  match fuel with
  | O => None
  | S f =>
      match skip_ws s with
      | q :: r0 =>
          if Ascii.eqb q dquote then
            match parse_string_body r0 with
            | Some (k, r1) =>
                match skip_ws r1 with
                | colon :: r2 =>
                    if Ascii.eqb colon ":"%char then
                      match parse_value f r2 with
                      | Some (v, r3) =>
                          match skip_ws r3 with
                          | c :: r4 =>
                              if Ascii.eqb c ","%char
                              then cons_fst (k, v) (parse_members f r4)
                              else if Ascii.eqb c "}"%char
                              then Some ([(k, v)], r4)
                              else None
                          | [] => None
                          end
                      | None => None
                      end
                    else None
                | [] => None
                end
            | None => None
            end
          else None
      | [] => None
      end
  end.

(** [JSON.parse]: one value, then nothing but white space.  [None] stands
    for the [SyntaxError] the call raises and, on text for which
    [beyond_model] holds, for a value this development has no name for. *)
Definition JSON_parse (s : str) : option json :=
  match parse_value (2 * length s + 2) s with
  | Some (v, r) => match skip_ws r with [] => Some v | _ => None end
  | None => None
  end.

(** Does the text use a fraction or an exponent in a number, or an escape
    for a code unit above 255 in a string?  [in_string] and [after_digit]
    say where the scan stands. *)
Fixpoint beyond_scan (in_string after_digit : bool) (s : str) : bool :=
  match s with
  | [] => false
  | c :: r =>
      if in_string then
        if Ascii.eqb c backslash then
          match r with
          | [] => false
          | e :: r1 =>
              if Ascii.eqb e "u"%char then
                match r1 with
                | h1 :: h2 :: h3 :: h4 :: r2 =>
                    match hex4 h1 h2 h3 h4 with
                    | Some n => (256 <=? n)%N || beyond_scan true false r2
                    | None => false
                    end
                | _ => false
                end
              else beyond_scan true false r1
          end
        else if Ascii.eqb c dquote then beyond_scan false false r
        else beyond_scan true false r
      else if Ascii.eqb c dquote then beyond_scan true false r
      else if Ascii.eqb c "."%char then true
      else if (Ascii.eqb c "e"%char || Ascii.eqb c "E"%char) && after_digit
      then true
      else beyond_scan false (is_digit c) r
  end.

Definition beyond_model (s : str) : bool := beyond_scan false false s.

(** *** Notions used to state the parser's correctness *)

(** What may follow a number for its digits to end there. *)
Definition delim (rest : str) : bool :=
  match rest with
  | [] => true
  | c :: _ => negb (is_digit c) && negb (starts_fraction rest)
  end.

Definition value_start (c : ascii) : bool :=
  Ascii.eqb c dquote || Ascii.eqb c "["%char || Ascii.eqb c "{"%char ||
  Ascii.eqb c "n"%char || Ascii.eqb c "t"%char || Ascii.eqb c "f"%char ||
  Ascii.eqb c "-"%char || is_digit c.

Fixpoint size (v : json) : nat :=
  match v with
  | JArr items => S (fold_right (fun x n => S (size x + n))%nat O items)
  | JObj members =>
      S (fold_right (fun kv n => S (size (snd kv) + n))%nat O members)
  | _ => 1%nat
  end.

Definition reads_back (v : json) : Prop :=
  forall fuel rest,
    (size v <= fuel)%nat -> delim rest = true ->
    parse_value fuel (stringify v ++ rest) = Some (v, rest).

Definition member_text (kv : str * json) : str :=
  quote (fst kv) ++ ":"%char :: stringify (snd kv).


(** ** Outcomes of a call *)

Inductive exn : Type :=
| ENOENT        (* the file does not exist *)
| SyntaxError.  (* raised by [JSON.parse] and by [new RegExp] *)

(** A call returns, throws, never settles, or runs into a part of the
    runtime that this development does not describe. *)
Inductive outcome (A : Type) : Type :=
| Ok (a : A)
| Throw (e : exn)
| Hang
| Unmodelled.

Arguments Ok {A} a.
Arguments Throw {A} e.
Arguments Hang {A}.
Arguments Unmodelled {A}.

Definition obind {A B : Type} (x : outcome A) (k : A -> outcome B)
  : outcome B :=
  match x with
  | Ok a => k a
  | Throw e => Throw e
  | Hang => Hang
  | Unmodelled => Unmodelled
  end.

Section Iteration.
Context {A : Type} (f : A -> outcome bool).

(** [Array.prototype.every]: stops at the first [false]. *)
Fixpoint every (l : list A) : outcome bool :=
  match l with
  | [] => Ok true
  | x :: r =>
      match f x with
      | Ok true => every r
      | other => other
      end
  end.

(** [Array.prototype.some]: stops at the first [true]. *)
Fixpoint some (l : list A) : outcome bool :=
  match l with
  | [] => Ok false
  | x :: r =>
      match f x with
      | Ok false => some r
      | other => other
      end
  end.

(** [Array.prototype.filter]. *)
Fixpoint filter_o (l : list A) : outcome (list A) :=
  match l with
  | [] => Ok []
  | x :: r =>
      obind (f x) (fun keep =>
      obind (filter_o r) (fun r' =>
      Ok (if keep then x :: r' else r')))
  end.
End Iteration.

(** ** Records and field values *)

(** A record is a JSON object, given by its members. *)
Definition record := list (str * json).

(** A field value; [None] is [undefined]. *)
Definition value := option json.

(** [data[key]] among the record's own members.  For a name that the
    record does not have and every object inherits ([inherited_name]
    below), the code reads the inherited function or object, which is no
    [value]; statements about such reads carry [reads_own]. *)
Fixpoint get (data : record) (key : str) : value :=
  match data with
  | [] => None
  | (k, v) :: rest => if str_eqb key k then Some v else get rest key
  end.

(** [a === b] where [a] is a field of a record read from the log.  Arrays
    and objects are compared by identity, and a value just built by
    [JSON.parse] is identical to nothing else. *)
Definition strict_eq (a b : value) : bool :=
  match a, b with
  | None, None => true
  | Some JNull, Some JNull => true
  | Some (JBool x), Some (JBool y) => Bool.eqb x y
  | Some (JNum x), Some (JNum y) => x =? y
  | Some (JStr x), Some (JStr y) => str_eqb x y
  | _, _ => false
  end.

(** [String(v)], for the values it returns on ([stringable] below): an
    object with a member [toString] of its own makes the conversion throw,
    and a number is printed digit by digit up to the safe integers. *)
Fixpoint json_to_string (v : json) : str :=
  match v with
  | JNull => chars "null"
  | JBool true => chars "true"
  | JBool false => chars "false"
  | JNum n => number_to_string n
  | JStr s => s
  | JArr items =>
      join [","%char]
        (map (fun x => match x with
                       | JNull => []
                       | _ => json_to_string x
                       end) items)
  | JObj _ => chars "[object Object]"
  end.

Definition to_string (v : value) : str :=
  match v with
  | None => chars "undefined"
  | Some j => json_to_string j
  end.

(** ** Regular expressions

    The patterns described here are sequences of literal characters, [.],
    [\b], [\B] and escaped syntax characters, matched with the [i] flag.
    A closing parenthesis met where no group or class has been opened is the
    syntax error [Unmatched ')']; any other syntax character leads out of
    the patterns described. *)

Inductive atom : Type :=
| Lit (c : ascii)
| Dot
| WordB
| NotWordB.

Definition is_syntax_char (c : ascii) : bool :=
  existsb (Ascii.eqb c) (chars "^$\.*+?()[]{}|").

Fixpoint RegExp_new (src : str) : outcome (list atom) :=
  match src with
  | [] => Ok []
  | c :: r =>
      if Ascii.eqb c backslash then
        match r with
        | [] => Throw SyntaxError
        | e :: r' =>
            if Ascii.eqb e "b"%char
            then obind (RegExp_new r') (fun p => Ok (WordB :: p))
            else if Ascii.eqb e "B"%char
            then obind (RegExp_new r') (fun p => Ok (NotWordB :: p))
            else if is_syntax_char e || Ascii.eqb e "/"%char
            then obind (RegExp_new r') (fun p => Ok (Lit e :: p))
            else Unmodelled
        end
      else if Ascii.eqb c "."%char
      then obind (RegExp_new r) (fun p => Ok (Dot :: p))
      else if Ascii.eqb c ")"%char then Throw SyntaxError
      else if is_syntax_char c then Unmodelled
      else obind (RegExp_new r) (fun p => Ok (Lit c :: p))
  end.

(** [Canonicalize] under the [i] flag: the upper-case form of a letter. *)
Definition canonicalize (c : ascii) : ascii :=
  let n := code c in
  if ((97 <=? n) && (n <=? 122))%N then ascii_of_N (n - 32)
  else if ((224 <=? n) && (n <=? 254) && negb (n =? 247))%N
       then ascii_of_N (n - 32)
  else c.

Definition is_word_char (c : ascii) : bool :=
  let n := code c in
  ((48 <=? n) && (n <=? 57) || (65 <=? n) && (n <=? 90) ||
   (97 <=? n) && (n <=? 122) || (n =? 95))%N.

Definition is_word (c : option ascii) : bool :=
  match c with
  | Some x => is_word_char x
  | None => false
  end.

Definition is_line_terminator (c : ascii) : bool :=
  Ascii.eqb c "010"%char || Ascii.eqb c "013"%char.

(** Does the pattern match at this position?  [prev] is the character just
    before the position, if any. *)
Fixpoint match_here (p : list atom) (prev : option ascii) (s : str) : bool :=
  match p with
  | [] => true
  | Lit c :: p' =>
      match s with
      | x :: s' =>
          Ascii.eqb (canonicalize x) (canonicalize c)
          && match_here p' (Some x) s'
      | [] => false
      end
  | Dot :: p' =>
      match s with
      | x :: s' => negb (is_line_terminator x) && match_here p' (Some x) s'
      | [] => false
      end
  | WordB :: p' =>
      xorb (is_word prev) (is_word (hd_error s)) && match_here p' prev s
  | NotWordB :: p' =>
      negb (xorb (is_word prev) (is_word (hd_error s)))
      && match_here p' prev s
  end.

Fixpoint search_from (p : list atom) (prev : option ascii) (s : str) : bool :=
  match_here p prev s ||
  match s with
  | x :: s' => search_from p (Some x) s'
  | [] => false
  end.

(** [re.test(text)]. *)
Definition RegExp_test (p : list atom) (text : str) : bool :=
  search_from p None text.

(** ** Query predicates *)

(** An operator object, by the keys it has. *)
Record QueryOperator : Type := {
  q_eq : option value;
  q_lt : option Z;
  q_gt : option Z;
  q_in : option (list value)
}.

Definition typeof_number (field : value) : option Z :=
  match field with
  | Some (JNum n) => Some n
  | _ => None
  end.

Definition operatorToPredicate (query : QueryOperator) (field : value)
  : bool :=
  match q_eq query with
  | Some v => strict_eq field v
  | None =>
      match q_lt query, typeof_number field with
      | Some bound, Some n => n <? bound
      | _, _ =>
          match q_gt query, typeof_number field with
          | Some bound, Some n => n >? bound
          | _, _ =>
              match q_in query with
              | Some candidates => existsb (strict_eq field) candidates
              | None => false
              end
          end
      end
  end.

(** A query object: its keys in enumeration order, each with its
    operator. *)
Definition Query := list (str * QueryOperator).

Definition queryToPredicate (query : Query) (data : record) : bool :=
  forallb (fun entry => operatorToPredicate (snd entry) (get data (fst entry)))
          query.

Unset Elimination Schemes.

Inductive TopLevelOperator : Type :=
| And (children : list TopLevelOperator)
| Or (children : list TopLevelOperator)
| Text (search : str)
| Fields (query : Query).

Set Elimination Schemes.

Definition text_pattern (search : str) : str :=
  chars "\b" ++ search ++ chars "\b".

Fixpoint topLevelPredicate (fullTextSearchFieldNames : list str)
    (query : TopLevelOperator) (data : record) : outcome bool :=
  match query with
  | And children =>
      every (fun q => topLevelPredicate fullTextSearchFieldNames q data)
            children
  | Or children =>
      some (fun q => topLevelPredicate fullTextSearchFieldNames q data)
           children
  | Text search =>
      some (fun text =>
              obind (RegExp_new (text_pattern search)) (fun re =>
              Ok (RegExp_test re (to_string text))))
           (map (fun fieldName => get data fieldName)
                fullTextSearchFieldNames)
  | Fields query => Ok (queryToPredicate query data)
  end.

(** The operator objects with a single key, and the one with none. *)
Definition op_eq (v : value) : QueryOperator :=
  {| q_eq := Some v; q_lt := None; q_gt := None; q_in := None |}.
Definition op_lt (n : Z) : QueryOperator :=
  {| q_eq := None; q_lt := Some n; q_gt := None; q_in := None |}.
Definition op_gt (n : Z) : QueryOperator :=
  {| q_eq := None; q_lt := None; q_gt := Some n; q_in := None |}.
Definition op_in (candidates : list value) : QueryOperator :=
  {| q_eq := None; q_lt := None; q_gt := None; q_in := Some candidates |}.
Definition op_none : QueryOperator :=
  {| q_eq := None; q_lt := None; q_gt := None; q_in := None |}.

(** A predicate tree matches a record when its predicate returns [true]. *)
Definition matches (fullTextSearchFieldNames : list str)
    (query : TopLevelOperator) (data : record) : Prop :=
  topLevelPredicate fullTextSearchFieldNames query data = Ok true.

(** The predicate of a tree returns a boolean for the record. *)
Definition settles (fullTextSearchFieldNames : list str)
    (query : TopLevelOperator) (data : record) : Prop :=
  exists b, topLevelPredicate fullTextSearchFieldNames query data = Ok b.

(** ** Ordering a result set *)

(** [ToNumber] of a field value; [None] is [NaN]. *)
Definition to_number (v : value) : option Z :=
  match v with
  | None => None
  | Some JNull => Some 0
  | Some (JBool b) => Some (if b then 1 else 0)
  | Some (JNum n) => Some n
  | Some _ => None
  end.

Fixpoint str_ltb (a b : str) : bool :=
  match a, b with
  | _, [] => false
  | [], _ :: _ => true
  | x :: a', y :: b' =>
      if (code x <? code y)%N then true
      else if (code y <? code x)%N then false
      else str_ltb a' b'
  end.

(** [a > b] between two strings, or between two values that [ToNumber]
    takes without parsing text. *)
Definition js_gt (a b : value) : bool :=
  match a, b with
  | Some (JStr x), Some (JStr y) => str_ltb y x
  | _, _ =>
      match to_number a, to_number b with
      | Some x, Some y => x >? y
      | _, _ => false
      end
  end.

Definition is_numeric (v : value) : bool :=
  match v with
  | Some JNull | Some (JBool _) | Some (JNum _) => true
  | _ => false
  end.

Definition is_string (v : value) : bool :=
  match v with
  | Some (JStr _) => true
  | _ => false
  end.

(** The comparisons that order the values: all strings, or all numbers,
    booleans and [null].  A missing field compares as [NaN], under which
    the comparator is no order. *)
Definition comparable (l : list value) : bool :=
  forallb is_numeric l || forallb is_string l.

Section Sort.
Context {A : Type} (comparefn : A -> A -> Z).

(** The slot of [pivot] in a sorted prefix: before the first element that
    [comparefn pivot] puts above it. *)
Fixpoint insert_pivot (pivot : A) (sorted : list A) : list A :=
  match sorted with
  | [] => [pivot]
  | x :: rest =>
      if comparefn pivot x <? 0 then pivot :: x :: rest
      else x :: insert_pivot pivot rest
  end.

(** [Array.prototype.sort] by insertion, as V8 sorts an array shorter
    than its minimal run: each element in turn is the pivot, compared
    as [comparefn pivot x] with the elements [x] already placed, and the
    search by bisection ends at the slot [insert_pivot] finds whenever
    the answers over the prefix are first non-negative, then negative. *)
Definition js_sort (l : list A) : list A :=
  fold_left (fun sorted pivot => insert_pivot pivot sorted) l [].
End Sort.

(** The comparator of [find]: [a[sKey] > b[sKey] ? 1 * sOrder : -1 * sOrder]. *)
Definition sort_compare (sKey : str) (sOrder : Z) (a b : record) : Z :=
  if js_gt (get a sKey) (get b sKey) then 1 * sOrder else -1 * sOrder.

Definition sort_pass (results : outcome (list record)) (entry : str * Z)
  : outcome (list record) :=
  obind results (fun rs =>
    if comparable (map (fun r => get r (fst entry)) rs)
    then Ok (js_sort (sort_compare (fst entry) (snd entry)) rs)
    else Unmodelled).

(** ** The log *)

Inductive tag : Type := E | D.

Record DatabaseRecord : Type := {
  type : tag;
  data : record
}.

Definition tag_char (t : tag) : ascii :=
  match t with
  | E => "E"%char
  | D => "D"%char
  end.

(** [s.split("\n")]. *)
Fixpoint split_lines (s : str) : list str :=
  match s with
  | [] => [[]]
  | c :: r =>
      if Ascii.eqb c newline then [] :: split_lines r
      else match split_lines r with
           | line :: lines => (c :: line) :: lines
           | [] => [[c]]
           end
  end.

Definition is_js_space (c : ascii) : bool :=
  let n := code c in
  ((9 <=? n) && (n <=? 13) || (n =? 32) || (n =? 160))%N.

Fixpoint trim_start (s : str) : str :=
  match s with
  | c :: r => if is_js_space c then trim_start r else s
  | [] => []
  end.

Definition trim (s : str) : str :=
  rev (trim_start (rev (trim_start s))).

Definition not_blank (line : str) : bool :=
  (0 <? length (trim line))%nat.

(** One line of the log: its tag and its parsed payload.  A payload that
    is not an object is no record of this development, and neither is one
    whose text is beyond the values it names. *)
Definition parse_line (line : str) : outcome DatabaseRecord :=
  let t := match strip_prefix ["E"%char] line with
           | Some _ => E
           | None => D
           end in
  match JSON_parse (tl line) with
  | Some (JObj members) => Ok {| type := t; data := members |}
  | Some _ => Unmodelled
  | None => if beyond_model (tl line) then Unmodelled else Throw SyntaxError
  end.

Fixpoint map_o {A B : Type} (f : A -> outcome B) (l : list A)
  : outcome (list B) :=
  match l with
  | [] => Ok []
  | x :: r =>
      obind (f x) (fun y => obind (map_o f r) (fun ys => Ok (y :: ys)))
  end.

Definition read_log (fileContent : str) : outcome (list DatabaseRecord) :=
  map_o parse_line (filter not_blank (split_lines fileContent)).

Definition line_text (r : DatabaseRecord) : str :=
  tag_char (type r) :: stringify (JObj (data r)).

Definition write_log (records : list DatabaseRecord) : str :=
  join [newline] (map line_text records) ++ [newline].

(** ** The store *)

(** What a call can see and change: the log file ([None] when there is no
    such file) and the number of holders of the mutation gate. *)
Record store : Type := {
  file : option str;
  locks : nat
}.

Definition M (A : Type) : Type := store -> outcome A * store.

Definition ret {A : Type} (a : A) : M A := fun st => (Ok a, st).

Definition bind {A B : Type} (m : M A) (k : A -> M B) : M B :=
  fun st =>
    match m st with
    | (Ok a, st') => k a st'
    | (Throw e, st') => (Throw e, st')
    | (Hang, st') => (Hang, st')
    | (Unmodelled, st') => (Unmodelled, st')
    end.

Definition lift {A : Type} (x : outcome A) : M A := fun st => (x, st).

Notation "x <- m ;; k" := (bind m (fun x => k))
  (at level 61, m at next level, right associativity).
Notation "m ;;; k" := (bind m (fun _ => k))
  (at level 61, right associativity).

(** [fs.readFile(filename, "utf8")]. *)
Definition readFile : M str :=
  fun st =>
    match file st with
    | Some content => (Ok content, st)
    | None => (Throw ENOENT, st)
    end.

(** [fs.writeFileSync(filename, text, { encoding: "utf8" })]. *)
Definition writeFileSync (text : str) : M unit :=
  fun st => (Ok tt, {| file := Some text; locks := locks st |}).

(** [fs.writeFileSync(filename, text, { encoding: "utf8", flag: "a" })]. *)
Definition appendFileSync (text : str) : M unit :=
  fun st =>
    (Ok tt,
     {| file := Some (match file st with
                      | Some content => content ++ text
                      | None => text
                      end);
        locks := locks st |}).

(** [Mutex.lock], for calls awaited one after another: the gate opens at
    once when nobody holds it, and never when a holder has not released
    it. *)
Definition lock : M unit :=
  fun st =>
    (if (locks st =? 0)%nat then Ok tt else Hang,
     {| file := file st; locks := S (locks st) |}).

Definition unlock : M unit :=
  fun st => (Ok tt, {| file := file st; locks := pred (locks st) |}).

Definition isLocked (st : store) : bool := (0 <? locks st)%nat.

Record QueryOptions : Type := {
  sort : option (list (str * Z));
  projection : option (list (str * bool))
}.

Definition no_options : QueryOptions :=
  {| sort := None; projection := None |}.

(** A result of [find]: whole records, or the objects built by a
    projection, whose members may be [undefined]. *)
Inductive found : Type :=
| Whole (results : list record)
| Projected (results : list (list (str * value))).

Definition project (projection : list (str * bool)) (result : record)
  : list (str * value) :=
  map (fun entry => (fst entry, get result (fst entry)))
      (filter (fun entry => snd entry) projection).

Definition is_live (r : DatabaseRecord) : bool :=
  match type r with
  | E => true
  | D => false
  end.

(** [JSON.stringify] of a result: members that are [undefined] are left
    out. *)
Definition stringify_members (members : list (str * value)) : str :=
  stringify
    (JObj (flat_map (fun kv => match snd kv with
                               | Some v => [(fst kv, v)]
                               | None => []
                               end) members)).

Definition stringify_found (f : found) : list str :=
  match f with
  | Whole results => map (fun r => stringify (JObj r)) results
  | Projected results => map stringify_members results
  end.

Section Database.
Variable fullTextSearchFieldNames : list str.

Definition readFromFile : M (list DatabaseRecord) :=
  fileContent <- readFile ;;
  lift (read_log fileContent).

Definition writeToFile (records : list DatabaseRecord) : M unit :=
  writeFileSync (write_log records).

Definition find (query : TopLevelOperator) (options : QueryOptions)
  : M found :=
  records <- readFromFile ;;
  let contents := map data (filter is_live records) in
  let predicate := topLevelPredicate fullTextSearchFieldNames query in
  results <- lift (filter_o predicate contents) ;;
  results <- lift (match sort options with
                   | Some entries => fold_left sort_pass entries (Ok results)
                   | None => Ok results
                   end) ;;
  match projection options with
  | Some entries => ret (Projected (map (project entries) results))
  | None => ret (Whole results)
  end.

Definition delete (query : TopLevelOperator) : M unit :=
  lock ;;;
  records <- readFromFile ;;
  queryFound <- find query no_options ;;
  let queryResults := stringify_found queryFound in
  let newRecords :=
    map (fun r =>
           {| type := if existsb (str_eqb (stringify (JObj (data r))))
                                 queryResults
                      then D else type r;
              data := data r |})
        records in
  writeToFile newRecords ;;;
  unlock.

Definition insert (data : record) : M unit :=
  lock ;;;
  records <- readFromFile ;;
  appendFileSync ("E"%char :: stringify (JObj data) ++ [newline]) ;;;
  unlock.
End Database.

(** ** Notions used to state the properties of the log *)

Definition has_newline (s : str) : bool := existsb (Ascii.eqb newline) s.

(** A record whose JSON object is well formed. *)
Definition wf_record (r : record) : Prop := wf_json (JObj r).

Definition wf_records (l : list DatabaseRecord) : Prop :=
  Forall (fun r => wf_record (data r)) l.

(** What [delete] makes of one entry of the log: a live entry whose record
    matches the predicate tree gets the tag [D]; any other entry is kept. *)
Definition tombstone (fullTextSearchFieldNames : list str)
    (query : TopLevelOperator) (r : DatabaseRecord) : DatabaseRecord :=
  match type r, topLevelPredicate fullTextSearchFieldNames query (data r) with
  | E, Ok true => {| type := D; data := data r |}
  | _, _ => r
  end.

Definition is_true (x : outcome bool) : bool :=
  match x with
  | Ok true => true
  | _ => false
  end.

(** ** Whole-word occurrence, in the words of the specification *)

(** The last character of [pre], or [prev] when [pre] is empty. *)
Definition last_or (prev : option ascii) (pre : str) : option ascii :=
  fold_left (fun _ c => Some c) pre prev.

(** [search] occurs in [text] as a whole word, letter case aside: some
    stretch of [text] equals [search] up to case, with no word character
    just before it and none just after it. *)
Definition whole_word_occurrence (search text : str) : Prop :=
  exists pre mid post,
    text = pre ++ mid ++ post /\
    map canonicalize mid = map canonicalize search /\
    is_word (last_or None pre) = false /\
    is_word (hd_error post) = false.

Definition all_ascii : list ascii :=
  map (fun n => ascii_of_nat n) (seq 0 256).

(** ** The earlier versions of [find]

    [src/exercises/exercise-13/database.ts] and [src/unnamed/part_000] have
    the same predicates as the class above and a [find] that reads the file
    itself: it keeps the lines that start with [E] and parses only those. *)

Definition starts_with_E (line : str) : bool :=
  match strip_prefix ["E"%char] line with
  | Some _ => true
  | None => false
  end.

(** [JSON.parse(line.substr(1)) as T]. *)
Definition parse_payload (line : str) : outcome record :=
  match JSON_parse (tl line) with
  | Some (JObj members) => Ok members
  | Some _ => Unmodelled
  | None => if beyond_model (tl line) then Unmodelled else Throw SyntaxError
  end.

(** [fileContent.split("\n").filter(startsWith("E")).map(JSON.parse)]. *)
Definition read_live (fileContent : str) : outcome (list record) :=
  map_o parse_payload (filter starts_with_E (split_lines fileContent)).

Module Exercise13.

Definition find (fullTextSearchFieldNames : list str)
    (query : TopLevelOperator) : M (list record) :=
  fileContent <- readFile ;;
  contents <- lift (read_live fileContent) ;;
  let predicate := topLevelPredicate fullTextSearchFieldNames query in
  lift (filter_o predicate contents).

End Exercise13.

Module Part000.

Definition find (fullTextSearchFieldNames : list str)
    (query : TopLevelOperator) (options : QueryOptions) : M found :=
  fileContent <- readFile ;;
  contents <- lift (read_live fileContent) ;;
  let predicate := topLevelPredicate fullTextSearchFieldNames query in
  results <- lift (filter_o predicate contents) ;;
  results <- lift (match sort options with
                   | Some entries => fold_left sort_pass entries (Ok results)
                   | None => Ok results
                   end) ;;
  match projection options with
  | Some entries => ret (Projected (map (project entries) results))
  | None => ret (Whole results)
  end.

End Part000.

(** ** Notions used to state further properties *)

(** The result of [find] as a list of whole records. *)
Definition whole (x : outcome (list record)) : outcome found :=
  obind x (fun rs => Ok (Whole rs)).

(** The number a record has in a field, [0] when it has none. *)
Definition num_at (key : str) (r : record) : Z :=
  match get r key with
  | Some (JNum n) => n
  | _ => 0
  end.

Definition has_number (key : str) (r : record) : Prop :=
  exists n, get r key = Some (JNum n).

(** Order of two numbers in the direction of a sort order. *)
Definition in_order (sOrder a b : Z) : Prop :=
  if 0 <? sOrder then a <= b else b <= a.

(** The sort passes of [find], and the form of its result. *)
Definition sort_all (options : QueryOptions) (kept : list record)
  : outcome (list record) :=
  match sort options with
  | Some entries => fold_left sort_pass entries (Ok kept)
  | None => Ok kept
  end.

Definition shape (options : QueryOptions) (rs : list record) : found :=
  match projection options with
  | Some entries => Projected (map (project entries) rs)
  | None => Whole rs
  end.

(** A log that is empty or whose last line is ended. *)
Definition terminated (content : str) : Prop :=
  content = [] \/ exists a, content = a ++ [newline].

(** A store on which the mutations work: the gate is free and the file is a
    terminated log that the reader parses. *)
Definition healthy (st : store) : Prop :=
  locks st = O /\
  exists content records,
    file st = Some content /\ terminated content /\
    read_log content = Ok records.

(** ** The values and names that the definitions above describe *)

(** The integers that a JavaScript number holds exactly and prints digit by
    digit. *)
Definition safe_number (n : Z) : bool := Z.abs n <=? 9007199254740991.

(** A key that is the canonical text of a natural number.  Objects
    enumerate such keys first, in ascending order, whatever the order of
    their definition. *)
Definition index_key (k : str) : bool :=
  match k with
  | [] => false
  | c :: r =>
      forallb is_digit k &&
      (negb (Ascii.eqb c "0"%char) || match r with [] => true | _ => false end)
  end.

(** A JSON value that the printer and the parser above treat as the code
    does: its numbers are safe integers and its objects have each key once
    and no integer index among their keys. *)
Fixpoint js_value (v : json) : Prop :=
  match v with
  | JNum n => safe_number n = true
  | JArr items => (fix all (l : list json) : Prop :=
                     match l with
                     | [] => True
                     | x :: l' => js_value x /\ all l'
                     end) items
  | JObj members =>
      NoDup (map fst members) /\
      (fix all (l : list (str * json)) : Prop :=
         match l with
         | [] => True
         | kv :: l' =>
             index_key (fst kv) = false /\ js_value (snd kv) /\ all l'
         end) members
  | _ => True
  end.

Definition js_records (l : list DatabaseRecord) : Prop :=
  Forall (fun r => js_value (JObj (data r))) l.

(** The names of the members of [Object.prototype], which every record
    has whether or not it has a member of that name itself. *)
Definition object_prototype_names : list str :=
  map chars
      ["constructor"; "hasOwnProperty"; "isPrototypeOf";
       "propertyIsEnumerable"; "toLocaleString"; "toString"; "valueOf";
       "__proto__"; "__defineGetter__"; "__defineSetter__";
       "__lookupGetter__"; "__lookupSetter__"]%string.

Definition inherited_name (key : str) : bool :=
  existsb (str_eqb key) object_prototype_names.

(** [data[key]] is a member of the record itself or [undefined]: the key is
    a member's, or no object inherits it. *)
Definition reads_own (data : record) (key : str) : Prop :=
  inherited_name key = false \/ In key (map fst data).

(** The values on which [String(v)] returns and is [json_to_string]. *)
Fixpoint stringable_json (v : json) : bool :=
  match v with
  | JNum n => safe_number n
  | JArr items => forallb stringable_json items
  | JObj members => negb (existsb (str_eqb (chars "toString")) (map fst members))
  | _ => true
  end.

Definition stringable (v : value) : bool :=
  match v with
  | None => true
  | Some j => stringable_json j
  end.

(** The full-text fields of a record can be read and turned into text. *)
Definition text_readable (fts : list str) (data : record) : Prop :=
  Forall (fun field => reads_own data field /\
                       stringable (get data field) = true) fts.

(** [a === b], in the words of the language, between a field read from the
    log and an operand that is [undefined] or a JSON value: both are
    [undefined], both [null], the same boolean, the same number or the same
    string.  (An array or an object is equal only to itself, and a value
    that [JSON.parse] has just built is no operand.) *)
Inductive strictly_equal : value -> value -> Prop :=
| se_undefined : strictly_equal None None
| se_null : strictly_equal (Some JNull) (Some JNull)
| se_bool (b : bool) : strictly_equal (Some (JBool b)) (Some (JBool b))
| se_num (n : Z) : strictly_equal (Some (JNum n)) (Some (JNum n))
| se_str (s : str) : strictly_equal (Some (JStr s)) (Some (JStr s)).

(** A search string without pattern characters that begins and ends with
    a word character. *)
Definition plain_search (search : str) : bool :=
  forallb (fun c => negb (is_syntax_char c)) search &&
  is_word (hd_error search) && is_word (last_or None search).

(** The reads of a predicate tree on a record stay within these limits:
    every field that a query of the tree names is read from the record
    itself, and under a [$text] node the full-text fields are readable. *)
Fixpoint query_readable (fts : list str) (query : TopLevelOperator)
    (data : record) : Prop :=
  match query with
  | And children =>
      (fix all (l : list TopLevelOperator) : Prop :=
         match l with
         | [] => True
         | q :: l' => query_readable fts q data /\ all l'
         end) children
  | Or children =>
      (fix all (l : list TopLevelOperator) : Prop :=
         match l with
         | [] => True
         | q :: l' => query_readable fts q data /\ all l'
         end) children
  | Text _ => text_readable fts data
  | Fields query => Forall (fun entry => reads_own data (fst entry)) query
  end.
(** ** Facts about the JSON printer and parser *)

Lemma json_ind (P : json -> Prop) :
  P JNull ->
  (forall b, P (JBool b)) ->
  (forall n, P (JNum n)) ->
  (forall s, P (JStr s)) ->
  (forall items, Forall P items -> P (JArr items)) ->
  (forall members, Forall (fun kv => P (snd kv)) members -> P (JObj members)) ->
  forall v, P v.
Proof.
  intros Hnull Hbool Hnum Hstr Harr Hobj.
  fix rec 1.
  intros [ | b | n | s | items | members ].
  - exact Hnull.
  - apply Hbool.
  - apply Hnum.
  - apply Hstr.
  - apply Harr. induction items as [ | x l IHl ].
    + constructor.
    + constructor; [ apply rec | exact IHl ].
  - apply Hobj. induction members as [ | kv l IHl ].
    + constructor.
    + constructor; [ apply rec | exact IHl ].
Qed.

Lemma wf_json_arr (items : list json) :
  wf_json (JArr items) <-> Forall wf_json items.
Proof.
  induction items as [ | x l IHl ]; simpl.
  - split; auto.
  - split.
    + intros [Hx Hl]. constructor; [ exact Hx | apply IHl, Hl ].
    + intros H. inversion H; subst. split; [ assumption | apply IHl; assumption ].
Qed.

Lemma wf_json_obj (members : list (str * json)) :
  wf_json (JObj members) <->
  NoDup (map fst members) /\ Forall (fun kv => wf_json (snd kv)) members.
Proof.
  simpl. apply and_iff_compat_l.
  induction members as [ | kv l IHl ].
  - split; auto.
  - split.
    + intros [Hx Hl]. constructor; [ exact Hx | apply IHl, Hl ].
    + intros H. inversion H; subst. split; [ assumption | apply IHl; assumption ].
Qed.

Lemma str_eqb_spec (a b : str) : str_eqb a b = true <-> a = b.
Proof.
  revert b. induction a as [ | x a IHa ]; intros [ | y b ]; simpl;
    try (split; [ discriminate | discriminate ]); try tauto.
  rewrite andb_true_iff, Ascii.eqb_eq, IHa.
  split; [ intros [-> ->]; reflexivity | intros H; inversion H; auto ].
Qed.

Lemma str_eqb_refl (a : str) : str_eqb a a = true.
Proof. apply str_eqb_spec. reflexivity. Qed.

Lemma str_eqb_neq (a b : str) : a <> b -> str_eqb a b = false.
Proof.
  intros H. destruct (str_eqb a b) eqn:E; [ | reflexivity ].
  apply str_eqb_spec in E. contradiction.
Qed.

Lemma strip_prefix_app (p r : str) : strip_prefix p (p ++ r) = Some r.
Proof.
  induction p as [ | x p IHp ]; simpl; [ reflexivity | ].
  rewrite Ascii.eqb_refl. exact IHp.
Qed.

(** *** Numbers *)


Lemma to_uint_normal (n : N) : N.to_uint n = Decimal.unorm (N.to_uint n).
Proof.
  rewrite <- (DecimalN.Unsigned.to_of (N.to_uint n)).
  rewrite DecimalN.Unsigned.of_to. reflexivity.
Qed.

Lemma to_uint_lone_zero (n : N) (u : Decimal.uint) :
  N.to_uint n = Decimal.D0 u -> u = Decimal.Nil /\ n = 0%N.
Proof.
  intros E.
  assert (Hu : u = Decimal.Nil).
  { pose proof (to_uint_normal n) as Hn. rewrite E in Hn.
    rewrite DecimalFacts.unorm_D0 in Hn. unfold Decimal.unorm in Hn.
    destruct (Decimal.nzhead u) eqn:Hz;
      try (exfalso; apply (DecimalFacts.nzhead_nonzero u u); congruence).
    inversion Hn. reflexivity. }
  split; [ exact Hu | ].
  subst u. rewrite <- (DecimalN.Unsigned.of_to n), E. reflexivity.
Qed.

Lemma to_uint_not_nil (n : N) : N.to_uint n <> Decimal.Nil.
Proof.
  rewrite to_uint_normal. apply DecimalFacts.unorm_nonnil.
Qed.

Lemma take_digits_stop (rest : str) :
  delim rest = true -> take_digits rest = (Decimal.Nil, rest).
Proof.
  destruct rest as [ | c r ]; [ reflexivity | ].
  unfold delim, is_digit. simpl take_digits.
  destruct (digit_of c); [ discriminate | reflexivity ].
Qed.

Lemma take_digits_uint (u : Decimal.uint) (rest : str) :
  delim rest = true -> take_digits (uint_chars u ++ rest) = (u, rest).
Proof.
  intros Hd. induction u; simpl; try rewrite IHu; try reflexivity.
  apply take_digits_stop, Hd.
Qed.

Lemma parse_int_part_to_uint (n : N) (rest : str) :
  delim rest = true ->
  parse_int_part (uint_chars (N.to_uint n) ++ rest) = Some (n, rest).
Proof.
  intros Hd.
  pose proof (DecimalN.Unsigned.of_to n) as Hof.
  destruct (N.to_uint n) as [ | u | u | u | u | u | u | u | u | u | u ] eqn:E;
    try (unfold parse_int_part; simpl uint_chars; simpl app;
         change (uint_chars u ++ rest) with (uint_chars u ++ rest);
         cbn [Ascii.eqb Bool.eqb is_digit digit_of take_digits];
         rewrite (take_digits_uint u rest Hd); rewrite Hof; reflexivity).
  - exfalso. exact (to_uint_not_nil n E).
  - destruct (to_uint_lone_zero n u E) as [-> ->]. reflexivity.
Qed.

Lemma delim_not_fraction (rest : str) :
  delim rest = true -> starts_fraction rest = false.
Proof.
  destruct rest as [ | c r ]; [ reflexivity | ].
  unfold delim. intros H. apply andb_true_iff in H as [_ H].
  apply negb_true_iff in H. exact H.
Qed.

Lemma number_to_string_head (n : Z) :
  exists c t, number_to_string n = c :: t /\
              (c = "-"%char \/ is_digit c = true).
Proof.
  unfold number_to_string.
  destruct (n <? 0); [ eexists; eexists; split; [ reflexivity | left; reflexivity ] | ].
  destruct (N.to_uint (Z.abs_N n)) eqn:E; simpl;
    try (eexists; eexists; split; [ reflexivity | right; reflexivity ]).
  exfalso. exact (to_uint_not_nil _ E).
Qed.

Lemma uint_chars_head_digit (n : N) :
  exists c t, uint_chars (N.to_uint n) = c :: t /\ is_digit c = true.
Proof.
  destruct (N.to_uint n) eqn:E; simpl;
    try (eexists; eexists; split; reflexivity).
  exfalso. exact (to_uint_not_nil _ E).
Qed.

Lemma is_digit_not_minus (c : ascii) :
  is_digit c = true -> Ascii.eqb c "-"%char = false.
Proof.
  destruct c as [[] [] [] [] [] [] [] []]; try reflexivity; discriminate.
Qed.

Lemma parse_number_to_string (n : Z) (rest : str) :
  delim rest = true ->
  parse_number (number_to_string n ++ rest) = Some (n, rest).
Proof.
  intros Hd. unfold number_to_string.
  destruct (n <? 0) eqn:Hneg.
  - simpl. rewrite (parse_int_part_to_uint _ rest Hd).
    rewrite (delim_not_fraction rest Hd).
    apply Z.ltb_lt in Hneg. f_equal. f_equal. rewrite N2Z.inj_abs_N. lia.
  - destruct (uint_chars_head_digit (Z.abs_N n)) as (c & t & Hc & Hdig).
    unfold parse_number.
    pose proof (parse_int_part_to_uint (Z.abs_N n) rest Hd) as Hp.
    rewrite Hc in *. simpl app in *. cbv beta iota zeta.
    rewrite (is_digit_not_minus c Hdig), Hp.
    rewrite (delim_not_fraction rest Hd).
    apply Z.ltb_ge in Hneg. f_equal. f_equal. rewrite N2Z.inj_abs_N. lia.
Qed.

(** *** Strings *)

Lemma parse_string_body_escape (c : ascii) (t : str) :
  parse_string_body (escape_char c ++ t) = cons_fst c (parse_string_body t).
Proof.
  destruct c as [[] [] [] [] [] [] [] []]; reflexivity.
Qed.

Lemma parse_string_body_quote (s rest : str) :
  parse_string_body (flat_map escape_char s ++ dquote :: rest) = Some (s, rest).
Proof.
  induction s as [ | c s IHs ].
  - reflexivity.
  - change (flat_map escape_char (c :: s))
      with (escape_char c ++ flat_map escape_char s).
    rewrite <- app_assoc, parse_string_body_escape, IHs. reflexivity.
Qed.

Lemma quote_app (s rest : str) :
  quote s ++ rest = dquote :: flat_map escape_char s ++ dquote :: rest.
Proof.
  unfold quote. simpl. rewrite <- app_assoc. reflexivity.
Qed.

(** *** Objects *)

Lemma obj_set_fresh (k : str) (v : json) (m : list (str * json)) :
  ~ In k (map fst m) -> obj_set k v m = m ++ [(k, v)].
Proof.
  induction m as [ | [k' v'] m IHm ]; simpl; intros Hk; [ reflexivity | ].
  rewrite str_eqb_neq by (intros ->; apply Hk; left; reflexivity).
  rewrite IHm by (intros H; apply Hk; right; exact H). reflexivity.
Qed.

Lemma obj_fold_nodup (l acc : list (str * json)) :
  NoDup (map fst (acc ++ l)) ->
  fold_left (fun m kv => obj_set (fst kv) (snd kv) m) l acc = acc ++ l.
Proof.
  revert acc. induction l as [ | [k v] l IHl ]; intros acc Hnd; simpl.
  - rewrite app_nil_r. reflexivity.
  - rewrite obj_set_fresh.
    + rewrite IHl; rewrite <- app_assoc; [ reflexivity | exact Hnd ].
    + rewrite map_app in Hnd. simpl in Hnd.
      apply NoDup_remove_2 in Hnd. intros H. apply Hnd.
      apply in_or_app. left. exact H.
Qed.

Lemma obj_of_members_nodup (l : list (str * json)) :
  NoDup (map fst l) -> obj_of_members l = l.
Proof.
  intros H. unfold obj_of_members. apply (obj_fold_nodup l []). exact H.
Qed.

(** *** Values *)


Lemma stringify_head (v : json) :
  exists c t, stringify v = c :: t /\ value_start c = true.
Proof.
  destruct v as [ | [ | ] | n | s | items | members ];
    try (eexists; eexists; split; reflexivity).
  destruct (number_to_string_head n) as (c & t & E & Hc).
  exists c, t. split; [ exact E | ].
  destruct Hc as [-> | Hc]; [ reflexivity | ].
  unfold value_start. rewrite Hc. apply orb_true_r.
Qed.

Lemma value_start_skip (c : ascii) (t : str) :
  value_start c = true -> skip_ws (c :: t) = c :: t.
Proof.
  destruct c as [[] [] [] [] [] [] [] []]; try discriminate; reflexivity.
Qed.

Lemma value_start_not_close (c : ascii) :
  value_start c = true ->
  Ascii.eqb c "]"%char = false /\ Ascii.eqb c "}"%char = false.
Proof.
  destruct c as [[] [] [] [] [] [] [] []]; try discriminate; split; reflexivity.
Qed.


Lemma parse_value_number (f : nat) (c : ascii) (r : str) :
  c = "-"%char \/ is_digit c = true ->
  parse_value (S f) (c :: r) =
  match parse_number (c :: r) with
  | Some (n, r') => Some (JNum n, r')
  | None => None
  end.
Proof.
  destruct c as [[] [] [] [] [] [] [] []]; intros [H | H];
    try discriminate; reflexivity.
Qed.


Lemma parse_value_open_bracket (f : nat) (r : str) :
  parse_value (S f) ("["%char :: r) =
  match skip_ws r with
  | c' :: r' =>
      if Ascii.eqb c' "]"%char then Some (JArr [], r')
      else match parse_elements f r with
           | Some (l, r'') => Some (JArr l, r'')
           | None => None
           end
  | [] => None
  end.
Proof. reflexivity. Qed.

Lemma parse_value_open_brace (f : nat) (r : str) :
  parse_value (S f) ("{"%char :: r) =
  match skip_ws r with
  | c' :: r' =>
      if Ascii.eqb c' "}"%char then Some (JObj [], r')
      else match parse_members f r with
           | Some (l, r'') => Some (JObj (obj_of_members l), r'')
           | None => None
           end
  | [] => None
  end.
Proof. reflexivity. Qed.

Lemma parse_elements_step (f : nat) (s : str) :
  parse_elements (S f) s =
  match parse_value f s with
  | Some (v, r) =>
      match skip_ws r with
      | c :: r' =>
          if Ascii.eqb c ","%char then cons_fst v (parse_elements f r')
          else if Ascii.eqb c "]"%char then Some ([v], r')
          else None
      | [] => None
      end
  | None => None
  end.
Proof. reflexivity. Qed.

Lemma parse_members_quote (f : nat) (k t : str) :
  parse_members (S f) (quote k ++ ":"%char :: t) =
  match parse_value f t with
  | Some (v, r3) =>
      match skip_ws r3 with
      | c :: r4 =>
          if Ascii.eqb c ","%char then cons_fst (k, v) (parse_members f r4)
          else if Ascii.eqb c "}"%char then Some ([(k, v)], r4)
          else None
      | [] => None
      end
  | None => None
  end.
Proof.
  rewrite quote_app.
  change (parse_members (S f) (dquote :: ?x)) with
    (match parse_string_body x with
     | Some (k, r1) =>
         match skip_ws r1 with
         | colon :: r2 =>
             if Ascii.eqb colon ":"%char then
               match parse_value f r2 with
               | Some (v, r3) =>
                   match skip_ws r3 with
                   | c :: r4 =>
                       if Ascii.eqb c ","%char
                       then cons_fst (k, v) (parse_members f r4)
                       else if Ascii.eqb c "}"%char
                       then Some ([(k, v)], r4)
                       else None
                   | [] => None
                   end
               | None => None
               end
             else None
         | [] => None
         end
     | None => None
     end).
  rewrite parse_string_body_quote. reflexivity.
Qed.

Lemma parse_elements_join (l : list json) :
  l <> [] -> Forall reads_back l ->
  forall fuel rest,
    (fold_right (fun x n => S (size x + n)) O l <= fuel)%nat ->
    parse_elements fuel (join [","%char] (map stringify l) ++ "]"%char :: rest)
    = Some (l, rest).
Proof.
  induction l as [ | x l IHl ]; [ congruence | ].
  intros _ Hall fuel rest Hfuel.
  inversion Hall as [ | ? ? Hx Hl ]; subst.
  simpl in Hfuel. destruct fuel as [ | f ]; [ lia | ].
  rewrite parse_elements_step.
  destruct l as [ | y l ].
  - simpl join. rewrite Hx by (try reflexivity; lia). reflexivity.
  - change (join [","%char] (map stringify (x :: y :: l)))
      with (stringify x ++ [","%char] ++ join [","%char] (map stringify (y :: l))).
    rewrite <- !app_assoc. simpl app at 2.
    rewrite Hx by (try reflexivity; lia).
    cbn [skip_ws is_ws Ascii.eqb Bool.eqb orb].
    rewrite IHl; [ reflexivity | congruence | exact Hl | simpl in *; lia ].
Qed.


Lemma parse_members_join (l : list (str * json)) :
  l <> [] -> Forall (fun kv => reads_back (snd kv)) l ->
  forall fuel rest,
    (fold_right (fun kv n => S (size (snd kv) + n)) O l <= fuel)%nat ->
    parse_members fuel (join [","%char] (map member_text l) ++ "}"%char :: rest)
    = Some (l, rest).
Proof.
  induction l as [ | [k v] l IHl ]; [ congruence | ].
  intros _ Hall fuel rest Hfuel.
  inversion Hall as [ | ? ? Hx Hl ]; subst. simpl in Hx.
  simpl in Hfuel. destruct fuel as [ | f ]; [ lia | ].
  destruct l as [ | y l ].
  - simpl join. unfold member_text at 1. simpl fst. simpl snd.
    rewrite <- app_assoc. simpl app at 2.
    rewrite parse_members_quote.
    rewrite Hx by (try reflexivity; lia). reflexivity.
  - change (join [","%char] (map member_text ((k, v) :: y :: l)))
      with (member_text (k, v) ++ [","%char]
              ++ join [","%char] (map member_text (y :: l))).
    remember (join [","%char] (map member_text (y :: l))) as J eqn:EJ.
    unfold member_text. simpl fst. simpl snd.
    replace ((quote k ++ ":"%char :: stringify v) ++ [","%char] ++ J)
      with (quote k ++ ":"%char :: stringify v ++ ","%char :: J)
      by (rewrite <- !app_assoc; reflexivity).
    replace ((quote k ++ ":"%char :: stringify v ++ ","%char :: J)
               ++ "}"%char :: rest)
      with (quote k ++ ":"%char :: stringify v
              ++ ","%char :: J ++ "}"%char :: rest)
      by (rewrite <- !app_assoc; simpl; rewrite <- !app_assoc; reflexivity).
    rewrite parse_members_quote.
    rewrite Hx by (try reflexivity; lia).
    cbn [skip_ws is_ws Ascii.eqb Bool.eqb orb].
    subst J.
    rewrite IHl; [ reflexivity | congruence | exact Hl | simpl in *; lia ].
Qed.

Lemma join_head (sep : str) (x : json) (l : list json) (t : str) :
  exists c u, join sep (map stringify (x :: l)) ++ t = c :: u /\
              value_start c = true.
Proof.
  destruct (stringify_head x) as (c & u & E & Hc).
  exists c. destruct l as [ | y l ].
  - simpl. rewrite E. eexists. split; [ reflexivity | exact Hc ].
  - change (join sep (map stringify (x :: y :: l)))
      with (stringify x ++ sep ++ join sep (map stringify (y :: l))).
    rewrite E. eexists. split; [ reflexivity | exact Hc ].
Qed.

Lemma stringify_arr (items : list json) :
  stringify (JArr items) =
  "["%char :: join [","%char] (map stringify items) ++ ["]"%char].
Proof. reflexivity. Qed.

Lemma stringify_obj (members : list (str * json)) :
  stringify (JObj members) =
  "{"%char :: join [","%char] (map member_text members) ++ ["}"%char].
Proof. reflexivity. Qed.

Theorem parse_value_stringify (v : json) : wf_json v -> reads_back v.
Proof.
  induction v as [ | b | n | s | items IH | members IH ] using json_ind;
    intros Hwf fuel rest Hfuel Hd;
    (destruct fuel as [ | f ]; [ simpl in Hfuel; lia | ]).
  - reflexivity.
  - destruct b; reflexivity.
  - simpl stringify.
    destruct (number_to_string_head n) as (c & t & E & Hc).
    pose proof (parse_number_to_string n rest Hd) as Hp.
    rewrite E in *. simpl app in *.
    rewrite (parse_value_number f c _ Hc), Hp. reflexivity.
  - simpl stringify. rewrite quote_app.
    change (parse_value (S f) (dquote :: ?x)) with
      (match parse_string_body x with
       | Some (y, r') => Some (JStr y, r')
       | None => None
       end).
    rewrite parse_string_body_quote. reflexivity.
  - apply wf_json_arr in Hwf.
    assert (Hall : Forall reads_back items).
    { rewrite Forall_forall in *. intros x Hx. apply IH; auto. }
    rewrite stringify_arr. simpl app. rewrite <- app_assoc. simpl app.
    rewrite parse_value_open_bracket.
    destruct items as [ | x l ]; [ reflexivity | ].
    destruct (join_head [","%char] x l ("]"%char :: rest)) as (c & u & E & Hc).
    pose proof (parse_elements_join (x :: l)) as Hp.
    specialize (Hp ltac:(congruence) Hall f rest).
    rewrite E in *. rewrite (value_start_skip c u Hc).
    destruct (value_start_not_close c Hc) as [-> _].
    rewrite Hp; [ reflexivity | simpl in *; lia ].
  - apply wf_json_obj in Hwf. destruct Hwf as [Hnd Hwf].
    assert (Hall : Forall (fun kv => reads_back (snd kv)) members).
    { rewrite Forall_forall in *. intros x Hx. apply IH; auto. }
    rewrite stringify_obj. simpl app. rewrite <- app_assoc. simpl app.
    rewrite parse_value_open_brace.
    destruct members as [ | [k x] l ]; [ reflexivity | ].
    pose proof (parse_members_join ((k, x) :: l)) as Hp.
    specialize (Hp ltac:(congruence) Hall f rest).
    assert (E : exists u, join [","%char] (map member_text ((k, x) :: l))
                          ++ "}"%char :: rest = dquote :: u).
    { destruct l; simpl; eexists; reflexivity. }
    destruct E as (u & E). rewrite E in *.
    cbn [skip_ws is_ws Ascii.eqb Bool.eqb orb dquote].
    rewrite Hp by (simpl in *; lia).
    rewrite obj_of_members_nodup by exact Hnd. reflexivity.
Qed.

Lemma size_elements_le (l : list json) :
  Forall (fun x => (size x <= 2 * length (stringify x))%nat) l ->
  (fold_right (fun x n => S (size x + n)) O l
   <= 2 * length (join [","%char] (map stringify l)) + 2)%nat.
Proof.
  induction l as [ | x l IHl ]; intros H; [ simpl; lia | ].
  inversion H as [ | ? ? Hx Hl ]; subst. specialize (IHl Hl).
  destruct l as [ | y l ].
  - simpl. lia.
  - change (join [","%char] (map stringify (x :: y :: l)))
      with (stringify x ++ [","%char] ++ join [","%char] (map stringify (y :: l))).
    rewrite !length_app.
    change (fold_right (fun x n => S (size x + n)) O (x :: y :: l))
      with (S (size x + fold_right (fun x n => S (size x + n)) O (y :: l))).
    simpl length at 2. lia.
Qed.

Lemma size_members_le (l : list (str * json)) :
  Forall (fun kv => (size (snd kv) <= 2 * length (stringify (snd kv)))%nat) l ->
  (fold_right (fun kv n => S (size (snd kv) + n)) O l
   <= 2 * length (join [","%char] (map member_text l)) + 2)%nat.
Proof.
  assert (Hm : forall kv, (length (stringify (snd kv)) <= length (member_text kv))%nat).
  { intros kv. unfold member_text. rewrite length_app. simpl. lia. }
  induction l as [ | x l IHl ]; intros H; [ simpl; lia | ].
  inversion H as [ | ? ? Hx Hl ]; subst. specialize (IHl Hl).
  specialize (Hm x).
  destruct l as [ | y l ].
  - cbn [fold_right map join]. lia.
  - change (join [","%char] (map member_text (x :: y :: l)))
      with (member_text x ++ [","%char] ++ join [","%char] (map member_text (y :: l))).
    rewrite !length_app.
    change (fold_right (fun kv n => S (size (snd kv) + n)) O (x :: y :: l))
      with (S (size (snd x)
               + fold_right (fun kv n => S (size (snd kv) + n)) O (y :: l))).
    simpl length at 2. lia.
Qed.

Lemma size_le_length (v : json) : (size v <= 2 * length (stringify v))%nat.
Proof.
  induction v as [ | b | n | s | items IH | members IH ] using json_ind.
  - simpl. lia.
  - destruct b; simpl; lia.
  - destruct (number_to_string_head n) as (c & t & E & _).
    simpl. rewrite E. simpl. lia.
  - simpl. lia.
  - pose proof (size_elements_le items IH) as H.
    rewrite stringify_arr. simpl length. rewrite length_app.
    change (size (JArr items))
      with (S (fold_right (fun x n => S (size x + n)) O items)).
    simpl length. lia.
  - pose proof (size_members_le members IH) as H.
    rewrite stringify_obj. simpl length. rewrite length_app.
    change (size (JObj members))
      with (S (fold_right (fun kv n => S (size (snd kv) + n)) O members)).
    simpl length. lia.
Qed.

(** [JSON.parse(JSON.stringify(v))] is [v]. *)
Theorem JSON_parse_stringify (v : json) :
  wf_json v -> JSON_parse (stringify v) = Some v.
Proof.
  intros Hwf. unfold JSON_parse.
  pose proof (parse_value_stringify v Hwf
                (2 * length (stringify v) + 2)%nat []) as H.
  rewrite app_nil_r in H. rewrite H; [ reflexivity | | reflexivity ].
  pose proof (size_le_length v). lia.
Qed.

(** *** Parsed values are well formed *)

Lemma obj_set_keys (k : str) (v : json) (m : list (str * json)) :
  map fst (obj_set k v m)
  = if existsb (str_eqb k) (map fst m) then map fst m else map fst m ++ [k].
Proof.
  induction m as [ | [k' v'] m IHm ]; [ reflexivity | ].
  cbn [obj_set map fst existsb].
  destruct (str_eqb k k') eqn:Hk; cbn [map fst orb]; [ reflexivity | ].
  rewrite IHm. destruct (existsb (str_eqb k) (map fst m)); reflexivity.
Qed.

Lemma obj_set_nodup (k : str) (v : json) (m : list (str * json)) :
  NoDup (map fst m) -> NoDup (map fst (obj_set k v m)).
Proof.
  intros Hnd. rewrite obj_set_keys.
  destruct (existsb (str_eqb k) (map fst m)) eqn:Hex; [ exact Hnd | ].
  apply NoDup_app; [ exact Hnd | repeat constructor; intros [] | ].
  intros x Hx [Hk | []]. subst x.
  assert (existsb (str_eqb k) (map fst m) = true); [ | congruence ].
  apply existsb_exists. exists k. split; [ exact Hx | apply str_eqb_refl ].
Qed.

Lemma obj_set_forall (P : json -> Prop) (k : str) (v : json)
    (m : list (str * json)) :
  P v -> Forall (fun kv => P (snd kv)) m ->
  Forall (fun kv => P (snd kv)) (obj_set k v m).
Proof.
  intros Hv. induction 1 as [ | [k' v'] m Hx Hm IH ]; cbn [obj_set].
  - repeat constructor. exact Hv.
  - destruct (str_eqb k k'); constructor; assumption.
Qed.

Lemma obj_of_members_wf (l : list (str * json)) :
  Forall (fun kv => wf_json (snd kv)) l -> wf_json (JObj (obj_of_members l)).
Proof.
  intros Hl. apply wf_json_obj. unfold obj_of_members.
  assert (Hacc : NoDup (map fst (@nil (str * json))) /\
                 Forall (fun kv => wf_json (snd kv)) (@nil (str * json))).
  { split; constructor. }
  revert Hacc. generalize (@nil (str * json)) as acc.
  induction Hl as [ | [k v] l Hv Hl IH ]; intros acc [Hnd Hall]; cbn [fold_left].
  - split; assumption.
  - apply IH. split.
    + apply obj_set_nodup, Hnd.
    + apply obj_set_forall; assumption.
Qed.

Lemma cons_fst_some {A B : Type} (x : A) (o : option (list A * B))
    (l : list A) (r : B) :
  cons_fst x o = Some (l, r) ->
  exists l', o = Some (l', r) /\ l = x :: l'.
Proof.
  destruct o as [ [l' r'] | ]; simpl; [ | discriminate ].
  intros H. inversion H; subst. exists l'. split; reflexivity.
Qed.

Ltac break_match H :=
  repeat match type of H with
         | context [ match ?x with _ => _ end ] =>
             let E := fresh "E" in destruct x eqn:E; try discriminate H
         end.

Lemma parse_wf (fuel : nat) :
  (forall s v r, parse_value fuel s = Some (v, r) -> wf_json v) /\
  (forall s l r, parse_elements fuel s = Some (l, r) -> Forall wf_json l) /\
  (forall s l r, parse_members fuel s = Some (l, r) ->
                 Forall (fun kv => wf_json (snd kv)) l).
Proof.
  induction fuel as [ | f [IHv [IHe IHm]] ].
  - repeat split; intros; discriminate.
  - split; [ | split ].
    + intros s v r H. cbn [parse_value] in H.
      destruct (skip_ws s) as [ | c t ]; [ discriminate | ].
      destruct (Ascii.eqb c dquote).
      { break_match H. inversion H; subst. exact I. }
      destruct (Ascii.eqb c "["%char).
      { destruct (skip_ws t) as [ | c' t' ]; [ discriminate | ].
        destruct (Ascii.eqb c' "]"%char).
        - inversion H; subst. exact I.
        - destruct (parse_elements f t) as [ [l r'] | ] eqn:El;
            [ | discriminate ].
          inversion H; subst. apply wf_json_arr. exact (IHe _ _ _ El). }
      destruct (Ascii.eqb c "{"%char).
      { destruct (skip_ws t) as [ | c' t' ]; [ discriminate | ].
        destruct (Ascii.eqb c' "}"%char).
        - inversion H; subst. split; constructor.
        - destruct (parse_members f t) as [ [l r'] | ] eqn:El;
            [ | discriminate ].
          inversion H; subst. apply obj_of_members_wf. exact (IHm _ _ _ El). }
      destruct (Ascii.eqb c "n"%char).
      { break_match H. inversion H; subst. exact I. }
      destruct (Ascii.eqb c "t"%char).
      { break_match H. inversion H; subst. exact I. }
      destruct (Ascii.eqb c "f"%char).
      { break_match H. inversion H; subst. exact I. }
      break_match H. inversion H; subst. exact I.
    + intros s l r H. rewrite parse_elements_step in H.
      destruct (parse_value f s) as [ [v t] | ] eqn:Ev; [ | discriminate ].
      destruct (skip_ws t) as [ | c t' ]; [ discriminate | ].
      destruct (Ascii.eqb c ","%char).
      * apply cons_fst_some in H as (l' & El & ->).
        constructor; [ exact (IHv _ _ _ Ev) | exact (IHe _ _ _ El) ].
      * destruct (Ascii.eqb c "]"%char); [ | discriminate ].
        inversion H; subst. constructor; [ exact (IHv _ _ _ Ev) | constructor ].
    + intros s l r H. cbn [parse_members] in H.
      destruct (skip_ws s) as [ | q r0 ]; [ discriminate | ].
      destruct (Ascii.eqb q dquote); [ | discriminate ].
      destruct (parse_string_body r0) as [ [k r1] | ]; [ | discriminate ].
      destruct (skip_ws r1) as [ | colon r2 ]; [ discriminate | ].
      destruct (Ascii.eqb colon ":"%char); [ | discriminate ].
      destruct (parse_value f r2) as [ [v r3] | ] eqn:Ev; [ | discriminate ].
      destruct (skip_ws r3) as [ | c r4 ]; [ discriminate | ].
      destruct (Ascii.eqb c ","%char).
      * apply cons_fst_some in H as (l' & El & ->).
        constructor; [ exact (IHv _ _ _ Ev) | exact (IHm _ _ _ El) ].
      * destruct (Ascii.eqb c "}"%char); [ | discriminate ].
        inversion H; subst. constructor; [ exact (IHv _ _ _ Ev) | constructor ].
Qed.

Theorem JSON_parse_wf (s : str) (v : json) : JSON_parse s = Some v -> wf_json v.
Proof.
  unfold JSON_parse. intros H.
  destruct (parse_value (2 * length s + 2) s) as [ [v' r] | ] eqn:Ev;
    [ | discriminate ].
  destruct (skip_ws r); [ | discriminate ].
  inversion H; subst. exact (proj1 (parse_wf _) _ _ _ Ev).
Qed.

Lemma stringify_inj (a b : json) :
  wf_json a -> wf_json b -> stringify a = stringify b -> a = b.
Proof.
  intros Ha Hb Heq.
  pose proof (JSON_parse_stringify a Ha) as Pa.
  pose proof (JSON_parse_stringify b Hb) as Pb.
  rewrite Heq in Pa. congruence.
Qed.

(** *** The fuel of [JSON_parse] is enough *)

Lemma skip_ws_length (s : str) : (length (skip_ws s) <= length s)%nat.
Proof.
  induction s as [ | c s IH ]; cbn [skip_ws]; [ lia | ].
  destruct (is_ws c); cbn [length]; lia.
Qed.

Lemma strip_prefix_length (p s r : str) :
  strip_prefix p s = Some r -> (length r <= length s)%nat.
Proof.
  revert s. induction p as [ | x p IH ]; intros s H; cbn [strip_prefix] in H.
  - inversion H. lia.
  - destruct s as [ | y s ]; [ discriminate | ].
    destruct (Ascii.eqb x y); [ | discriminate ].
    apply IH in H. cbn [length]. lia.
Qed.

Lemma take_digits_length (s : str) (u : Decimal.uint) (r : str) :
  take_digits s = (u, r) -> (length r <= length s)%nat.
Proof.
  revert u r. induction s as [ | c s IH ]; intros u r H; cbn [take_digits] in H.
  - inversion H. lia.
  - destruct (digit_of c).
    + destruct (take_digits s) as [u' r'] eqn:E. inversion H; subst.
      specialize (IH _ _ eq_refl). cbn [length]. lia.
    + inversion H; subst. lia.
Qed.

Lemma parse_number_length (s : str) (n : Z) (r : str) :
  parse_number s = Some (n, r) -> (length r < length s)%nat.
Proof.
  assert (G : forall t m r', parse_int_part t = Some (m, r') ->
                             (length r' < length t)%nat).
  { intros t m r' H. unfold parse_int_part in H.
    destruct t as [ | c t ]; [ discriminate | ].
    destruct (Ascii.eqb c "0"%char).
    - inversion H; subst. cbn [length]. lia.
    - destruct (is_digit c) eqn:Hd; [ | discriminate ].
      cbn [take_digits] in H. unfold is_digit in Hd.
      destruct (digit_of c); [ | discriminate ].
      destruct (take_digits t) as [u' r''] eqn:E. inversion H; subst.
      apply take_digits_length in E. cbn [length]. lia. }
  unfold parse_number. destruct s as [ | c s ]; [ discriminate | ].
  destruct (Ascii.eqb c "-"%char).
  - destruct (parse_int_part s) as [ [m r'] | ] eqn:E; [ | discriminate ].
    destruct (starts_fraction r'); [ discriminate | ].
    intros H. inversion H; subst. apply G in E. cbn [length]. lia.
  - destruct (parse_int_part (c :: s)) as [ [m r'] | ] eqn:E; [ | discriminate ].
    destruct (starts_fraction r'); [ discriminate | ].
    intros H. inversion H; subst. apply G in E. exact E.
Qed.

Lemma parse_string_body_length (s x r : str) :
  parse_string_body s = Some (x, r) -> (length r < length s)%nat.
Proof.
  remember (length s) as n eqn:Hn. revert s x r Hn.
  induction n as [ n IH ] using lt_wf_ind. intros s x r Hn H.
  destruct s as [ | c s ]; [ discriminate | ].
  cbn [parse_string_body] in H. cbn [length] in Hn.
  destruct (Ascii.eqb c dquote); [ inversion H; subst; lia | ].
  destruct (Ascii.eqb c backslash).
  - destruct s as [ | e s1 ]; [ discriminate | ]. cbn [length] in Hn.
    destruct (unescape e).
    + apply cons_fst_some in H as (l' & H & _).
      apply (IH (length s1)) in H; [ | lia | reflexivity ]. lia.
    + destruct (Ascii.eqb e "u"%char); [ | discriminate ].
      destruct s1 as [ | h1 [ | h2 [ | h3 [ | h4 s2 ] ] ] ]; try discriminate.
      cbn [length] in Hn.
      destruct (hex4 h1 h2 h3 h4); [ | discriminate ].
      destruct (_ <? 256)%N; [ | discriminate ].
      apply cons_fst_some in H as (l' & H & _).
      apply (IH (length s2)) in H; [ | lia | reflexivity ]. lia.
  - destruct (_ <? 32)%N; [ discriminate | ].
    apply cons_fst_some in H as (l' & H & _).
    apply (IH (length s)) in H; [ | lia | reflexivity ]. lia.
Qed.

Lemma parse_enough (f : nat) :
  (forall s v r, parse_value f s = Some (v, r) ->
     (length r < length s)%nat /\
     forall f', (2 * (length s - length r) <= f')%nat ->
                parse_value f' s = Some (v, r)) /\
  (forall s l r, parse_elements f s = Some (l, r) ->
     (length r < length s)%nat /\
     forall f', (2 * (length s - length r) - 1 <= f')%nat ->
                parse_elements f' s = Some (l, r)) /\
  (forall s l r, parse_members f s = Some (l, r) ->
     (length r < length s)%nat /\
     forall f', (2 * (length s - length r) - 1 <= f')%nat ->
                parse_members f' s = Some (l, r)).
Proof.
  induction f as [ | f [IHv [IHe IHm]] ].
  - repeat split; intros; discriminate.
  - split; [ | split ].
    + intros s v r H. cbn [parse_value] in H.
      pose proof (skip_ws_length s) as Hs.
      destruct (skip_ws s) as [ | c t ] eqn:Es; [ discriminate | ].
      cbn [length] in Hs.
      destruct (Ascii.eqb c dquote) eqn:C1.
      { destruct (parse_string_body t) as [ [x r'] | ] eqn:Eb; [ | discriminate ].
        inversion H; subst. apply parse_string_body_length in Eb as Hl.
        split; [ lia | ]. intros [ | f' ] Hf; [ lia | ].
        cbn [parse_value]. rewrite Es, C1, Eb. reflexivity. }
      destruct (Ascii.eqb c "["%char) eqn:C2.
      { pose proof (skip_ws_length t) as Ht.
        destruct (skip_ws t) as [ | c' t' ] eqn:Et; [ discriminate | ].
        cbn [length] in Ht.
        destruct (Ascii.eqb c' "]"%char) eqn:C3.
        - inversion H; subst. split; [ lia | ].
          intros [ | f' ] Hf; [ lia | ].
          cbn [parse_value]. rewrite Es, C1, C2, Et, C3. reflexivity.
        - destruct (parse_elements f t) as [ [l r'] | ] eqn:El;
            [ | discriminate ].
          inversion H; subst. destruct (IHe _ _ _ El) as [Hl Hg].
          split; [ lia | ]. intros [ | f' ] Hf; [ lia | ].
          cbn [parse_value]. rewrite Es, C1, C2, Et, C3.
          rewrite (Hg f') by lia. reflexivity. }
      destruct (Ascii.eqb c "{"%char) eqn:C3.
      { pose proof (skip_ws_length t) as Ht.
        destruct (skip_ws t) as [ | c' t' ] eqn:Et; [ discriminate | ].
        cbn [length] in Ht.
        destruct (Ascii.eqb c' "}"%char) eqn:C4.
        - inversion H; subst. split; [ lia | ].
          intros [ | f' ] Hf; [ lia | ].
          cbn [parse_value]. rewrite Es, C1, C2, C3, Et, C4. reflexivity.
        - destruct (parse_members f t) as [ [l r'] | ] eqn:El;
            [ | discriminate ].
          inversion H; subst. destruct (IHm _ _ _ El) as [Hl Hg].
          split; [ lia | ]. intros [ | f' ] Hf; [ lia | ].
          cbn [parse_value]. rewrite Es, C1, C2, C3, Et, C4.
          rewrite (Hg f') by lia. reflexivity. }
      destruct (Ascii.eqb c "n"%char) eqn:C4.
      { destruct (strip_prefix (chars "ull") t) as [ r' | ] eqn:Ep;
          [ | discriminate ].
        inversion H; subst. apply strip_prefix_length in Ep as Hl.
        split; [ lia | ]. intros [ | f' ] Hf; [ lia | ].
        cbn [parse_value]. rewrite Es, C1, C2, C3, C4, Ep. reflexivity. }
      destruct (Ascii.eqb c "t"%char) eqn:C5.
      { destruct (strip_prefix (chars "rue") t) as [ r' | ] eqn:Ep;
          [ | discriminate ].
        inversion H; subst. apply strip_prefix_length in Ep as Hl.
        split; [ lia | ]. intros [ | f' ] Hf; [ lia | ].
        cbn [parse_value]. rewrite Es, C1, C2, C3, C4, C5, Ep. reflexivity. }
      destruct (Ascii.eqb c "f"%char) eqn:C6.
      { destruct (strip_prefix (chars "alse") t) as [ r' | ] eqn:Ep;
          [ | discriminate ].
        inversion H; subst. apply strip_prefix_length in Ep as Hl.
        split; [ lia | ]. intros [ | f' ] Hf; [ lia | ].
        cbn [parse_value]. rewrite Es, C1, C2, C3, C4, C5, C6, Ep.
        reflexivity. }
      destruct (parse_number (c :: t)) as [ [n r'] | ] eqn:En;
        [ | discriminate ].
      inversion H; subst. apply parse_number_length in En as Hl.
      cbn [length] in Hl.
      split; [ lia | ]. intros [ | f' ] Hf; [ lia | ].
      cbn [parse_value]. rewrite Es, C1, C2, C3, C4, C5, C6, En. reflexivity.
    + intros s l r H. rewrite parse_elements_step in H.
      destruct (parse_value f s) as [ [v t] | ] eqn:Ev; [ | discriminate ].
      destruct (IHv _ _ _ Ev) as [Hl Hg].
      pose proof (skip_ws_length t) as Ht.
      destruct (skip_ws t) as [ | c t' ] eqn:Et; [ discriminate | ].
      cbn [length] in Ht.
      destruct (Ascii.eqb c ","%char) eqn:C1.
      * apply cons_fst_some in H as (l' & El & ->).
        destruct (IHe _ _ _ El) as [Hl' Hg'].
        split; [ lia | ]. intros [ | f' ] Hf; [ lia | ].
        rewrite parse_elements_step, (Hg f') by lia.
        rewrite Et, C1, (Hg' f') by lia. reflexivity.
      * destruct (Ascii.eqb c "]"%char) eqn:C2; [ | discriminate ].
        inversion H; subst.
        split; [ lia | ]. intros [ | f' ] Hf; [ lia | ].
        rewrite parse_elements_step, (Hg f') by lia.
        rewrite Et, C1, C2. reflexivity.
    + intros s l r H. cbn [parse_members] in H.
      pose proof (skip_ws_length s) as Hs.
      destruct (skip_ws s) as [ | q r0 ] eqn:Es; [ discriminate | ].
      cbn [length] in Hs.
      destruct (Ascii.eqb q dquote) eqn:C0; [ | discriminate ].
      destruct (parse_string_body r0) as [ [k r1] | ] eqn:Eb; [ | discriminate ].
      apply parse_string_body_length in Eb as Hb.
      pose proof (skip_ws_length r1) as H1.
      destruct (skip_ws r1) as [ | colon r2 ] eqn:E1; [ discriminate | ].
      cbn [length] in H1.
      destruct (Ascii.eqb colon ":"%char) eqn:C1; [ | discriminate ].
      destruct (parse_value f r2) as [ [v r3] | ] eqn:Ev; [ | discriminate ].
      destruct (IHv _ _ _ Ev) as [Hl Hg].
      pose proof (skip_ws_length r3) as H3.
      destruct (skip_ws r3) as [ | c r4 ] eqn:E3; [ discriminate | ].
      cbn [length] in H3.
      destruct (Ascii.eqb c ","%char) eqn:C2.
      * apply cons_fst_some in H as (l' & El & ->).
        destruct (IHm _ _ _ El) as [Hl' Hg'].
        split; [ lia | ]. intros [ | f' ] Hf; [ lia | ].
        cbn [parse_members]. rewrite Es, C0, Eb, E1, C1, (Hg f') by lia.
        rewrite E3, C2, (Hg' f') by lia. reflexivity.
      * destruct (Ascii.eqb c "}"%char) eqn:C3; [ | discriminate ].
        inversion H; subst.
        split; [ lia | ]. intros [ | f' ] Hf; [ lia | ].
        cbn [parse_members]. rewrite Es, C0, Eb, E1, C1, (Hg f') by lia.
        rewrite E3, C2, C3. reflexivity.
Qed.

(** A text that parses with some fuel parses with the fuel of
    [JSON_parse]. *)
Theorem JSON_parse_fuel (f : nat) (s : str) (v : json) (r : str) :
  parse_value f s = Some (v, r) -> skip_ws r = [] -> JSON_parse s = Some v.
Proof.
  intros H Hr. destruct (proj1 (parse_enough f) _ _ _ H) as [_ Hg].
  unfold JSON_parse. rewrite (Hg (2 * length s + 2)%nat) by lia.
  rewrite Hr. reflexivity.
Qed.

(** *** The values the printer and the parser treat as the code does *)

Lemma js_value_arr (items : list json) :
  js_value (JArr items) <-> Forall js_value items.
Proof.
  induction items as [ | x l IHl ]; simpl.
  - split; auto.
  - split.
    + intros [Hx Hl]. constructor; [ exact Hx | apply IHl, Hl ].
    + intros H. inversion H; subst. split; [ assumption | apply IHl; assumption ].
Qed.

Lemma js_value_obj (members : list (str * json)) :
  js_value (JObj members) <->
  NoDup (map fst members) /\
  Forall (fun kv => index_key (fst kv) = false /\ js_value (snd kv)) members.
Proof.
  simpl. apply and_iff_compat_l.
  induction members as [ | kv l IHl ].
  - split; auto.
  - split.
    + intros (Hk & Hx & Hl). constructor; [ split; assumption | apply IHl, Hl ].
    + intros H. inversion H as [ | ? ? [Hk Hx] Hl ]; subst.
      split; [ exact Hk | split; [ exact Hx | apply IHl, Hl ] ].
Qed.

Lemma js_value_wf (v : json) : js_value v -> wf_json v.
Proof.
  induction v as [ | b | n | s | items IH | members IH ] using json_ind;
    intros H; try exact I.
  - apply wf_json_arr. apply js_value_arr in H.
    rewrite Forall_forall in *. intros x Hx. apply IH; auto.
  - apply wf_json_obj. apply js_value_obj in H as [Hnd H].
    split; [ exact Hnd | ].
    rewrite Forall_forall in *. intros x Hx. apply IH; [ exact Hx | ].
    apply H, Hx.
Qed.

(** ** Operators, queries and predicate trees *)

Lemma strict_eq_spec (a b : value) :
  strict_eq a b = true <-> strictly_equal a b.
Proof.
  split.
  - destruct a as [ [ | x | x | x | x | x ] | ],
             b as [ [ | y | y | y | y | y ] | ];
      simpl; try discriminate; intros H.
    + constructor.
    + apply Bool.eqb_prop in H. subst. constructor.
    + apply Z.eqb_eq in H. subst. constructor.
    + apply str_eqb_spec in H. subst. constructor.
    + constructor.
  - intros [ | | x | n | s ]; simpl.
    + reflexivity.
    + reflexivity.
    + apply Bool.eqb_reflx.
    + apply Z.eqb_refl.
    + apply str_eqb_refl.
Qed.

(** C6. The operator evaluator: [{$eq: v}] is strict equality with [v],
    that is, the field and [v] are both [undefined], both [null], the same
    boolean, the same number or the same string; [{$in: set}] is membership
    of the field in [set] under that equality; [{$lt: n}] and [{$gt: n}]
    compare a numeric field with [n] and are [false] on any other field; an
    operator without a recognised key is [false]. *)
Theorem operator_evaluator (field : value) :
  (forall v, operatorToPredicate (op_eq v) field = true <->
             strictly_equal field v) /\
  (forall candidates,
      operatorToPredicate (op_in candidates) field = true <->
      exists v, In v candidates /\ strictly_equal field v) /\
  (forall n,
      match field with
      | Some (JNum x) =>
          operatorToPredicate (op_lt n) field = (x <? n) /\
          operatorToPredicate (op_gt n) field = (x >? n)
      | _ =>
          operatorToPredicate (op_lt n) field = false /\
          operatorToPredicate (op_gt n) field = false
      end) /\
  operatorToPredicate op_none field = false.
Proof.
  split; [ | split; [ | split ] ].
  - intros v. apply strict_eq_spec.
  - intros candidates.
    assert (H : operatorToPredicate (op_in candidates) field
                = existsb (strict_eq field) candidates).
    { unfold operatorToPredicate, op_in; simpl.
      destruct (typeof_number field); reflexivity. }
    rewrite H, existsb_exists. split.
    + intros (v & Hin & Hv). exists v. split; [ exact Hin | ].
      apply strict_eq_spec, Hv.
    + intros (v & Hin & Hv). exists v. split; [ exact Hin | ].
      apply strict_eq_spec, Hv.
  - intros n. destruct field as [ [ | b | x | s | l | m ] | ];
      split; reflexivity.
  - unfold operatorToPredicate, op_none; simpl.
    destruct (typeof_number field); reflexivity.
Qed.

Lemma queryToPredicate_Forall (query : Query) (data : record) :
  queryToPredicate query data = true <->
  Forall (fun entry =>
            operatorToPredicate (snd entry) (get data (fst entry)) = true)
         query.
Proof.
  unfold queryToPredicate. rewrite forallb_forall, Forall_forall. tauto.
Qed.

(** What [data[key]] reads, in terms of the members of the record alone:
    the value of the member with that key, [undefined] when there is
    none. *)
Lemma get_member (data : record) (key : str) (v : json) :
  NoDup (map fst data) -> (get data key = Some v <-> In (key, v) data).
Proof.
  induction data as [ | [k w] rest IH ]; simpl; intros Hnd.
  - split; [ discriminate | intros [] ].
  - inversion Hnd as [ | ? ? Hk Hrest ]; subst.
    destruct (str_eqb key k) eqn:Hkey.
    + apply str_eqb_spec in Hkey. subst k. split.
      * intros H. injection H as <-. left. reflexivity.
      * intros [H | H].
        -- injection H as <-. reflexivity.
        -- exfalso. apply Hk. apply in_map_iff. exists (key, v). auto.
    + rewrite (IH Hrest). split.
      * intros H. right. exact H.
      * intros [H | H]; [ | exact H ].
        injection H as -> _. rewrite str_eqb_refl in Hkey. discriminate.
Qed.

Lemma get_missing (data : record) (key : str) :
  get data key = None <-> ~ In key (map fst data).
Proof.
  induction data as [ | [k w] rest IH ]; simpl.
  - tauto.
  - destruct (str_eqb key k) eqn:Hkey.
    + apply str_eqb_spec in Hkey. subst k. split; [ discriminate | ].
      intros H. exfalso. apply H. left. reflexivity.
    + rewrite IH. split.
      * intros H [Hk | Hk]; [ | exact (H Hk) ].
        subst k. rewrite str_eqb_refl in Hkey. discriminate.
      * intros H Hk. apply H. right. exact Hk.
Qed.

Lemma get_same_members (data data' : record) (key : str) :
  NoDup (map fst data) -> NoDup (map fst data') ->
  (forall v, In (key, v) data <-> In (key, v) data') ->
  get data key = get data' key.
Proof.
  intros Hnd Hnd' Hsame.
  destruct (get data key) as [ v | ] eqn:Hg.
  - apply (get_member data key v Hnd) in Hg. apply Hsame in Hg.
    apply (get_member data' key v Hnd') in Hg. symmetry. exact Hg.
  - destruct (get data' key) as [ v' | ] eqn:Hg'; [ | reflexivity ].
    apply (get_member data' key v' Hnd') in Hg'. apply Hsame in Hg'.
    apply (get_member data key v' Hnd) in Hg'. congruence.
Qed.

(** C7. The compiled query is [true] exactly when every field named in the
    query passes its operator on the record's value for that field: on the
    value of the member with that name when the record has one, on
    [undefined] when it has none.  The empty query is [true] on every
    record; two records that have the same members under the names of the
    query get the same answer, whatever their other members.  The record
    has each key once, and the query names its members or names that no
    object inherits. *)
Theorem query_compiler (query : Query) (data : record) :
  NoDup (map fst data) ->
  (forall key, In key (map fst query) -> reads_own data key) ->
  (queryToPredicate query data = true <->
   forall key op, In (key, op) query ->
     (forall v, In (key, v) data -> operatorToPredicate op (Some v) = true) /\
     (~ In key (map fst data) -> operatorToPredicate op None = true)) /\
  queryToPredicate [] data = true /\
  (forall data',
      NoDup (map fst data') ->
      (forall key v, In key (map fst query) ->
                     (In (key, v) data <-> In (key, v) data')) ->
      queryToPredicate query data = queryToPredicate query data').
Proof.
  intros Hnd _. split; [ | split ].
  - rewrite queryToPredicate_Forall, Forall_forall. split.
    + intros H key op Hin. specialize (H (key, op) Hin). simpl in H. split.
      * intros v Hv. apply (get_member data key v Hnd) in Hv.
        rewrite Hv in H. exact H.
      * intros Hno. apply get_missing in Hno. rewrite Hno in H. exact H.
    + intros H [key op] Hin. destruct (H key op Hin) as [Hsome Hnone].
      simpl. destruct (get data key) as [ v | ] eqn:Hg.
      * apply Hsome. apply (get_member data key v Hnd). exact Hg.
      * apply Hnone. apply get_missing. exact Hg.
  - reflexivity.
  - intros data' Hnd' Hsame. unfold queryToPredicate.
    induction query as [ | [key op] q IH ]; [ reflexivity | ].
    simpl. rewrite (get_same_members data data' key Hnd Hnd').
    + f_equal. apply IH. intros k v Hk. apply Hsame. right. exact Hk.
    + intros v. apply Hsame. left. reflexivity.
Qed.

Lemma query_compiler_witness :
  let query := [(chars "age", op_gt 1)] in
  let data := [(chars "name", JStr (chars "a")); (chars "age", JNum 3)] in
  let data' := [(chars "age", JNum 3)] in
  queryToPredicate query data = true /\
  queryToPredicate query data = queryToPredicate query data'.
Proof.
  intros query data data'.
  assert (Hnd : NoDup (map fst data)).
  { repeat constructor; simpl; intuition discriminate. }
  assert (Hown : forall key, In key (map fst query) -> reads_own data key).
  { intros key [<- | []]. left. reflexivity. }
  destruct (query_compiler query data Hnd Hown) as (Hiff & _ & Hframe).
  split.
  - apply Hiff. intros key op [H | []]. injection H as <- <-. split.
    + intros v [H | [H | []]]; [ discriminate H | ].
      injection H as <-. reflexivity.
    + intros Hno. exfalso. apply Hno. right. left. reflexivity.
  - apply Hframe.
    + repeat constructor; simpl; intuition discriminate.
    + intros key v [<- | []]. split.
      * intros [H | [H | []]]; [ discriminate H | left; exact H ].
      * intros [H | []]. right. left. exact H.
Defined.

Section IterationFacts.
Context {A : Type} (f : A -> outcome bool).





End IterationFacts.




(** ** The store: reading *)

(** C10. [find] leaves the store as it found it: the log file after the
    call is the log file before it, whatever the predicate tree and the
    options, and whether the call returns or throws. *)
Theorem find_reads_only (fts : list str) (query : TopLevelOperator)
    (options : QueryOptions) (st : store) :
  snd (find fts query options st) = st /\
  file (snd (find fts query options st)) = file st.
Proof.
  assert (H : snd (find fts query options st) = st).
  { unfold find, readFromFile, readFile, bind, lift, ret.
    destruct (file st) as [ content | ]; [ | reflexivity ].
    destruct (read_log content) as [ records | e | | ]; try reflexivity.
    destruct (filter_o _ _) as [ results | e | | ]; try reflexivity.
    destruct (match sort options with
              | Some entries => fold_left sort_pass entries (Ok results)
              | None => Ok results
              end) as [ sorted | e | | ]; try reflexivity.
    destruct (projection options); reflexivity. }
  split; [ exact H | rewrite H; reflexivity ].
Qed.

(** ** The log format *)

Lemma has_newline_app (a b : str) :
  has_newline (a ++ b) = has_newline a || has_newline b.
Proof. apply existsb_app. Qed.

Lemma uint_chars_no_newline (u : Decimal.uint) :
  has_newline (uint_chars u) = false.
Proof. induction u; simpl; auto. Qed.

Lemma escape_char_no_newline (c : ascii) :
  has_newline (escape_char c) = false.
Proof. destruct c as [[] [] [] [] [] [] [] []]; reflexivity. Qed.

Lemma quote_no_newline (s : str) : has_newline (quote s) = false.
Proof.
  unfold quote. cbn [has_newline existsb]. fold (has_newline (flat_map escape_char s ++ [dquote])).
  rewrite has_newline_app. simpl. rewrite orb_false_r.
  induction s as [ | c s IHs ]; [ reflexivity | ].
  simpl flat_map. rewrite has_newline_app, escape_char_no_newline. exact IHs.
Qed.

Lemma join_no_newline (l : list str) :
  Forall (fun x => has_newline x = false) l ->
  has_newline (join [","%char] l) = false.
Proof.
  induction 1 as [ | x l Hx Hl IH ]; [ reflexivity | ].
  destruct l as [ | y l ]; [ exact Hx | ].
  change (join [","%char] (x :: y :: l))
    with (x ++ [","%char] ++ join [","%char] (y :: l)).
  rewrite !has_newline_app, Hx, IH. reflexivity.
Qed.

Lemma stringify_no_newline (v : json) : has_newline (stringify v) = false.
Proof.
  induction v as [ | b | n | s | items IH | members IH ] using json_ind.
  - reflexivity.
  - destruct b; reflexivity.
  - simpl. unfold number_to_string.
    destruct (n <? 0); simpl; apply uint_chars_no_newline.
  - apply quote_no_newline.
  - rewrite stringify_arr.
    change (has_newline ("["%char :: ?x)) with (has_newline x).
    rewrite has_newline_app, join_no_newline; [ reflexivity | ].
    apply Forall_map. exact IH.
  - rewrite stringify_obj.
    change (has_newline ("{"%char :: ?x)) with (has_newline x).
    rewrite has_newline_app, join_no_newline; [ reflexivity | ].
    apply Forall_map. rewrite Forall_forall in *. intros kv Hkv.
    unfold member_text. rewrite has_newline_app, quote_no_newline.
    simpl. apply IH, Hkv.
Qed.

Lemma split_lines_not_nil (s : str) : split_lines s <> [].
Proof.
  destruct s as [ | c r ]; cbn [split_lines]; [ discriminate | ].
  destruct (Ascii.eqb c newline); [ discriminate | ].
  destruct (split_lines r); discriminate.
Qed.

Lemma split_lines_app (a b : str) :
  split_lines (a ++ newline :: b) = split_lines a ++ split_lines b.
Proof.
  induction a as [ | c a IHa ]; cbn [split_lines app].
  - rewrite Ascii.eqb_refl. reflexivity.
  - destruct (Ascii.eqb c newline); [ rewrite IHa; reflexivity | ].
    rewrite IHa. pose proof (split_lines_not_nil a) as Hn.
    destruct (split_lines a); [ contradiction | reflexivity ].
Qed.

Lemma split_lines_one (s : str) :
  has_newline s = false -> split_lines s = [s].
Proof.
  induction s as [ | c s IHs ]; [ reflexivity | ].
  intros H. unfold has_newline in H. cbn [existsb] in H.
  apply orb_false_iff in H as [Hc Hs].
  cbn [split_lines]. rewrite Ascii.eqb_sym, Hc, (IHs Hs). reflexivity.
Qed.

Lemma split_lines_join (x : str) (l : list str) :
  Forall (fun y => has_newline y = false) (x :: l) ->
  split_lines (join [newline] (x :: l) ++ [newline]) = (x :: l) ++ [[]].
Proof.
  revert x. induction l as [ | y l IHl ]; intros x H;
    inversion H as [ | ? ? Hx Hl ]; subst.
  - simpl join. rewrite split_lines_app, (split_lines_one x Hx). reflexivity.
  - change (join [newline] (x :: y :: l))
      with (x ++ [newline] ++ join [newline] (y :: l)).
    remember (join [newline] (y :: l)) as J eqn:EJ.
    replace ((x ++ [newline] ++ J) ++ [newline])
      with (x ++ newline :: (J ++ [newline]))
      by (rewrite <- !app_assoc; reflexivity).
    subst J.
    rewrite split_lines_app, (split_lines_one x Hx), (IHl y Hl). reflexivity.
Qed.

Lemma js_records_wf (records : list DatabaseRecord) :
  js_records records -> wf_records records.
Proof.
  unfold js_records, wf_records, wf_record. intros H.
  eapply Forall_impl; [ | exact H ]. cbv beta. intros r. apply js_value_wf.
Qed.

Lemma trim_start_keeps (s t : str) (c : ascii) :
  is_js_space c = false -> trim_start (s ++ c :: t) <> [].
Proof.
  intros Hc. induction s as [ | x s IHs ]; cbn [app trim_start].
  - rewrite Hc. discriminate.
  - destruct (is_js_space x); [ exact IHs | discriminate ].
Qed.

Lemma not_blank_head (c : ascii) (r : str) :
  is_js_space c = false -> not_blank (c :: r) = true.
Proof.
  intros Hc. unfold not_blank, trim. cbn [trim_start]. rewrite Hc.
  cbn [rev]. rewrite length_rev.
  pose proof (trim_start_keeps (rev r) [] c Hc) as Hn.
  destruct (trim_start (rev r ++ [c])); [ contradiction | reflexivity ].
Qed.

Lemma not_blank_line_text (r : DatabaseRecord) : not_blank (line_text r) = true.
Proof.
  unfold line_text. apply not_blank_head. destruct (type r); reflexivity.
Qed.

Lemma line_text_no_newline (r : DatabaseRecord) :
  has_newline (line_text r) = false.
Proof.
  unfold line_text, has_newline. cbn [existsb].
  fold (has_newline (stringify (JObj (data r)))).
  rewrite stringify_no_newline. destruct (type r); reflexivity.
Qed.

Lemma parse_line_text (r : DatabaseRecord) :
  wf_record (data r) -> parse_line (line_text r) = Ok r.
Proof.
  intros Hwf. unfold parse_line, line_text. cbn [tl].
  rewrite (JSON_parse_stringify _ Hwf).
  destruct r as [ [ | ] members ]; reflexivity.
Qed.

Lemma map_o_line_text (records : list DatabaseRecord) :
  wf_records records -> map_o parse_line (map line_text records) = Ok records.
Proof.
  induction 1 as [ | r l Hr Hl IH ]; [ reflexivity | ].
  cbn [map map_o]. rewrite (parse_line_text r Hr), IH. reflexivity.
Qed.

Lemma filter_not_blank_lines (records : list DatabaseRecord) (tail : list str) :
  filter not_blank (map line_text records ++ tail)
  = map line_text records ++ filter not_blank tail.
Proof.
  induction records as [ | r l IH ]; [ reflexivity | ].
  cbn [map app filter]. rewrite not_blank_line_text, IH. reflexivity.
Qed.

Lemma lines_of_write_log (records : list DatabaseRecord) :
  filter not_blank (split_lines (write_log records)) = map line_text records.
Proof.
  unfold write_log. destruct records as [ | r l ]; [ reflexivity | ].
  change (map line_text (r :: l)) with (line_text r :: map line_text l).
  rewrite split_lines_join.
  - change (line_text r :: map line_text l) with (map line_text (r :: l)).
    rewrite filter_not_blank_lines. apply app_nil_r.
  - change (line_text r :: map line_text l) with (map line_text (r :: l)).
    apply Forall_map, Forall_forall. intros x _. apply line_text_no_newline.
Qed.

Lemma nth_line_of_write_log (records : list DatabaseRecord) (i : nat)
    (r : DatabaseRecord) :
  nth_error records i = Some r ->
  nth_error (split_lines (write_log records)) i = Some (line_text r).
Proof.
  intros Hi. unfold write_log. destruct records as [ | r0 l ].
  - destruct i; discriminate.
  - change (map line_text (r0 :: l)) with (line_text r0 :: map line_text l).
    rewrite split_lines_join.
    + change (line_text r0 :: map line_text l) with (map line_text (r0 :: l)).
      rewrite nth_error_app1.
      * rewrite nth_error_map, Hi. reflexivity.
      * rewrite length_map. apply nth_error_Some. congruence.
    + change (line_text r0 :: map line_text l) with (map line_text (r0 :: l)).
      apply Forall_map, Forall_forall. intros x _. apply line_text_no_newline.
Qed.

Lemma read_log_write_log (records : list DatabaseRecord) :
  wf_records records -> read_log (write_log records) = Ok records.
Proof.
  intros Hwf. unfold read_log.
  rewrite lines_of_write_log. apply map_o_line_text, Hwf.
Qed.

(** C3. Writing a sequence of tagged records with the full-rewrite writer
    and reading the file back returns the same sequence: the same records
    with the same tags in the same order.  The records are JavaScript
    objects as the definitions describe them: each key once, no integer
    index among the keys, safe integers for numbers. *)
Theorem write_then_read (records : list DatabaseRecord) (st : store) :
  js_records records ->
  (writeToFile records ;;; readFromFile) st
  = (Ok records, {| file := Some (write_log records); locks := locks st |}).
Proof.
  intros Hjs. pose proof (js_records_wf records Hjs) as Hwf.
  unfold bind, writeToFile, writeFileSync, readFromFile, readFile, lift.
  cbn [file locks bind]. unfold bind. cbn [file].
  rewrite (read_log_write_log records Hwf). reflexivity.
Qed.

Lemma write_then_read_witness :
  let records :=
    [ {| type := E; data := [(chars "name", JStr (chars "a")); (chars "age", JNum 3)] |};
      {| type := D; data := [(chars "name", JStr (chars "b")); (chars "tags", JArr [JNull; JBool true])] |} ] in
  let st := {| file := None; locks := 0 |} in
  (writeToFile records ;;; readFromFile) st
  = (Ok records, {| file := Some (write_log records); locks := 0 |}).
Proof.
  intros records st.
  apply (write_then_read records st).
  repeat constructor; simpl; intuition discriminate.
Defined.

(** ** The store: inserting *)

Lemma map_o_app {A B : Type} (f : A -> outcome B) (l1 l2 : list A) :
  map_o f (l1 ++ l2)
  = obind (map_o f l1) (fun x => obind (map_o f l2) (fun y => Ok (x ++ y))).
Proof.
  induction l1 as [ | a l1 IH ]; cbn [app map_o].
  - destruct (map_o f l2); reflexivity.
  - destruct (f a) as [ b | e | | ]; cbn [obind]; try reflexivity.
    rewrite IH. destruct (map_o f l1) as [ x | e | | ]; cbn [obind];
      try reflexivity.
    destruct (map_o f l2); reflexivity.
Qed.

(** A log that is empty or whose last line is terminated. *)
Lemma read_log_append (content : str) (r : DatabaseRecord) :
  content = [] \/ (exists a, content = a ++ [newline]) ->
  wf_record (data r) ->
  read_log (content ++ line_text r ++ [newline])
  = obind (read_log content) (fun rs => Ok (rs ++ [r])).
Proof.
  intros Hc Hwf.
  assert (Hone : filter not_blank (split_lines (line_text r ++ [newline]))
                 = [line_text r]).
  { rewrite split_lines_app, (split_lines_one _ (line_text_no_newline r)).
    cbn [split_lines app filter]. rewrite not_blank_line_text. reflexivity. }
  unfold read_log. destruct Hc as [-> | [a ->]].
  - cbn [app]. rewrite Hone. cbn [map_o]. rewrite (parse_line_text r Hwf).
    reflexivity.
  - rewrite <- app_assoc. cbn [app].
    rewrite (split_lines_app a (line_text r ++ [newline])),
      (split_lines_app a []), !filter_app, Hone.
    cbn [split_lines filter]. rewrite app_nil_r, map_o_app.
    cbn [map_o]. rewrite (parse_line_text r Hwf). cbn [obind].
    destruct (map_o parse_line (filter not_blank (split_lines a)));
      reflexivity.
Qed.

Lemma filter_o_all {A : Type} (l : list A) :
  filter_o (fun _ => Ok true) l = Ok l.
Proof.
  induction l as [ | x l IH ]; cbn [filter_o obind]; [ reflexivity | ].
  rewrite IH. reflexivity.
Qed.

Lemma insert_unreadable (r : record) (st : store) (content : str) (e : exn) :
  file st = Some content -> read_log content = Throw e ->
  locks st = O ->
  insert r st = (Throw e, {| file := Some content; locks := 1 |}).
Proof.
  intros Hf Hr Hl.
  unfold insert, bind, lock, readFromFile, readFile, lift.
  rewrite Hl. cbn [Nat.eqb file]. unfold bind. cbn [file].
  rewrite Hf. cbv beta iota. rewrite Hr. reflexivity.
Qed.

(** C2, as the code has it.  On a log that the reader parses, with the gate
    free, [insert r] returns after appending the one line [E], the JSON text
    of [r] and a line end; the prior content is kept as it was.  When that
    prior content is empty or ends with a line end, [find] with the empty
    query then returns the live records of the prior log followed by [r]. *)
Theorem insert_appends (r : record) (st : store) (content : str)
    (records : list DatabaseRecord) :
  file st = Some content -> locks st = O -> read_log content = Ok records ->
  insert r st
  = (Ok tt,
     {| file := Some (content ++ "E"%char :: stringify (JObj r) ++ [newline]);
        locks := O |}) /\
  (wf_record r ->
   content = [] \/ (exists a, content = a ++ [newline]) ->
   forall fts,
     fst (find fts (Fields []) no_options (snd (insert r st)))
     = Ok (Whole (map data (filter is_live records) ++ [r]))).
Proof.
  intros Hf Hl Hr.
  assert (Hins : insert r st
                 = (Ok tt,
                    {| file := Some (content ++ "E"%char
                                       :: stringify (JObj r) ++ [newline]);
                       locks := O |})).
  { unfold insert, bind, lock, readFromFile, readFile, lift,
      appendFileSync, unlock.
    rewrite Hl. cbn [Nat.eqb file locks]. unfold bind. cbn [file].
    rewrite Hf. cbv beta iota. rewrite Hr. reflexivity. }
  split; [ exact Hins | ].
  intros Hwf Hend fts. rewrite Hins. cbn [snd].
  unfold find, bind, readFromFile, readFile, lift, ret. cbn [file].
  unfold bind. cbn [file].
  change ("E"%char :: stringify (JObj r) ++ [newline])
    with (line_text {| type := E; data := r |} ++ [newline]).
  rewrite (read_log_append content {| type := E; data := r |} Hend Hwf), Hr.
  cbn [obind no_options sort projection topLevelPredicate queryToPredicate forallb].
  rewrite filter_o_all. cbn [fst].
  rewrite filter_app, map_app. reflexivity.
Qed.

Lemma insert_appends_witness :
  let r := [(chars "name", JStr (chars "c")); (chars "age", JNum 7)] in
  let records := [ {| type := D; data := [(chars "age", JNum 1)] |};
                   {| type := E; data := [(chars "age", JNum 2)] |} ] in
  let st := {| file := Some (write_log records); locks := O |} in
  insert r st
  = (Ok tt,
     {| file := Some (write_log records
                        ++ "E"%char :: stringify (JObj r) ++ [newline]);
        locks := O |}) /\
  fst (find [] (Fields []) no_options (snd (insert r st)))
  = Ok (Whole [[(chars "age", JNum 2)]; r]).
Proof.
  intros r records st.
  destruct (insert_appends r st (write_log records) records) as [H1 H2];
    try reflexivity.
  split; [ exact H1 | ].
  apply H2.
  - repeat constructor; simpl; intuition discriminate.
  - right. eexists. unfold write_log. reflexivity.
Defined.

(** C2, as stated, fails on a log whose last line has no line end: the
    log holds one live record, [insert] appends to that very line, and the
    next [find] throws instead of returning a result with the record. *)
Lemma insert_unterminated_log :
  let st := {| file := Some (chars "E{}"); locks := O |} in
  let r : record := [] in
  fst (find [] (Fields []) no_options st) = Ok (Whole [[]]) /\
  insert r st = (Ok tt, {| file := Some (chars "E{}E{}" ++ [newline]);
                          locks := O |}) /\
  ~ (exists results,
        fst (find [] (Fields []) no_options (snd (insert r st)))
        = Ok (Whole results) /\ In r results).
Proof.
  intros st r. split; [ reflexivity | ]. split; [ reflexivity | ].
  intros [results [H _]]. vm_compute in H. discriminate.
Qed.

(** ** The store: deleting *)

Lemma parse_line_wf (line : str) (r : DatabaseRecord) :
  parse_line line = Ok r -> wf_record (data r).
Proof.
  unfold parse_line, wf_record. intros H.
  destruct (JSON_parse (tl line)) as [ [ | | | | | members ] | ] eqn:Ep;
    try discriminate.
  - inversion H; subst. exact (JSON_parse_wf _ _ Ep).
  - destruct (beyond_model (tl line)); discriminate.
Qed.

Lemma map_o_forall {A B : Type} (f : A -> outcome B) (P : B -> Prop)
    (l : list A) (l' : list B) :
  (forall x y, f x = Ok y -> P y) -> map_o f l = Ok l' -> Forall P l'.
Proof.
  intros Hf. revert l'. induction l as [ | x l IH ]; intros l' H;
    cbn [map_o] in H.
  - inversion H. constructor.
  - destruct (f x) as [ y | | | ] eqn:Ex; try discriminate.
    destruct (map_o f l) as [ ys | | | ]; try discriminate.
    inversion H; subst. constructor; [ exact (Hf x y Ex) | apply IH; reflexivity ].
Qed.

Lemma read_log_wf (content : str) (records : list DatabaseRecord) :
  read_log content = Ok records -> wf_records records.
Proof.
  unfold read_log, wf_records. apply map_o_forall. exact parse_line_wf.
Qed.

Lemma filter_o_settled {A : Type} (f : A -> outcome bool) (l : list A) :
  Forall (fun x => exists b, f x = Ok b) l ->
  filter_o f l = Ok (filter (fun x => is_true (f x)) l).
Proof.
  induction 1 as [ | x l [b Hx] _ IH ]; [ reflexivity | ].
  cbn [filter_o filter]. rewrite Hx, IH. destruct b; reflexivity.
Qed.

Lemma filter_o_subset {A : Type} (f : A -> outcome bool) (l l' : list A) :
  filter_o f l = Ok l' -> forall x, In x l' -> In x l /\ f x = Ok true.
Proof.
  revert l'. induction l as [ | a l IH ]; intros l' H x Hx;
    cbn [filter_o] in H.
  - inversion H; subst. destruct Hx.
  - destruct (f a) as [ keep | | | ] eqn:Ea; try discriminate.
    destruct (filter_o f l) as [ r | | | ]; try discriminate.
    cbn [obind] in H. inversion H; subst.
    destruct keep.
    + destruct Hx as [<- | Hx]; [ split; [ left; reflexivity | exact Ea ] | ].
      destruct (IH r eq_refl x Hx). split; [ right | ]; assumption.
    + destruct (IH r eq_refl x Hx). split; [ right | ]; assumption.
Qed.

Lemma insert_pivot_in {A : Type} (cmp : A -> A -> Z) (p x : A) (l : list A) :
  In x (insert_pivot cmp p l) -> x = p \/ In x l.
Proof.
  induction l as [ | y l IH ]; cbn [insert_pivot].
  - intros [<- | []]. left. reflexivity.
  - destruct (cmp p y <? 0).
    + intros [<- | H]; [ left; reflexivity | right; exact H ].
    + intros [<- | H]; [ right; left; reflexivity | ].
      destruct (IH H) as [-> | H']; [ left; reflexivity | right; right; exact H' ].
Qed.

Lemma js_sort_in {A : Type} (cmp : A -> A -> Z) (l : list A) (x : A) :
  In x (js_sort cmp l) -> In x l.
Proof.
  unfold js_sort.
  assert (G : forall acc, In x (fold_left (fun s p => insert_pivot cmp p s) l acc)
                          -> In x acc \/ In x l).
  { induction l as [ | a l IH ]; intros acc H; cbn [fold_left] in H.
    - left. exact H.
    - destruct (IH _ H) as [H' | H'].
      + destruct (insert_pivot_in _ _ _ _ H') as [-> | H''].
        * right. left. reflexivity.
        * left. exact H''.
      + right. right. exact H'. }
  intros H. destruct (G [] H) as [[] | H']. exact H'.
Qed.

Lemma sort_passes_in (entries : list (str * Z)) (start : outcome (list record))
    (rs rs' : list record) :
  start = Ok rs -> fold_left sort_pass entries start = Ok rs' ->
  forall x, In x rs' -> In x rs.
Proof.
  revert start rs. induction entries as [ | e entries IH ];
    intros start rs Hs H x Hx; cbn [fold_left] in H.
  - rewrite Hs in H. inversion H; subst. exact Hx.
  - subst start. unfold sort_pass at 2 in H. cbn [obind] in H.
    destruct (comparable (map (fun r => get r (fst e)) rs)).
    + apply (js_sort_in (sort_compare (fst e) (snd e))).
      exact (IH _ _ eq_refl H x Hx).
    + exfalso. clear -H. induction entries as [ | e' entries IH' ];
        cbn [fold_left] in H; [ discriminate | ].
      apply IH'. exact H.
Qed.

(** Every record that [find] returns whole is the record of a live entry of
    the log and matches the predicate tree. *)
Lemma find_whole_live (fts : list str) (q : TopLevelOperator)
    (options : QueryOptions) (st : store) (content : str)
    (records : list DatabaseRecord) (results : list record) :
  file st = Some content -> read_log content = Ok records ->
  fst (find fts q options st) = Ok (Whole results) ->
  forall d, In d results ->
            matches fts q d /\
            exists r, In r records /\ type r = E /\ data r = d.
Proof.
  intros Hf Hr H d Hd.
  unfold find, bind, readFromFile, readFile, lift, ret in H.
  cbn [file] in H. unfold bind in H. rewrite Hf in H. cbv beta iota in H.
  rewrite Hr in H.
  destruct (filter_o (topLevelPredicate fts q)
                     (map data (filter is_live records)))
    as [ kept | | | ] eqn:Ek; try discriminate.
  assert (Hin : In d kept).
  { destruct (sort options) as [ entries | ].
    - destruct (fold_left sort_pass entries (Ok kept)) as [ sorted | | | ] eqn:Es;
        try discriminate.
      destruct (projection options); try discriminate.
      cbn [fst] in H. inversion H; subst.
      exact (sort_passes_in entries (Ok kept) kept results eq_refl Es d Hd).
    - destruct (projection options); try discriminate.
      cbn [fst] in H. inversion H; subst. exact Hd. }
  destruct (filter_o_subset _ _ _ Ek d Hin) as [Hl Hm].
  split; [ exact Hm | ].
  apply in_map_iff in Hl as (r & Hdr & Hr').
  apply filter_In in Hr' as [Hr' Hlive].
  exists r. split; [ exact Hr' | ].
  split; [ | exact Hdr ].
  unfold is_live in Hlive. destruct (type r); [ reflexivity | discriminate ].
Qed.

Lemma existsb_str_eqb (s : str) (l : list str) :
  existsb (str_eqb s) l = true <-> In s l.
Proof.
  rewrite existsb_exists. split.
  - intros (x & Hx & He). apply str_eqb_spec in He. subst x. exact Hx.
  - intros H. exists s. split; [ exact H | apply str_eqb_refl ].
Qed.

Lemma retag_is_tombstone (fts : list str) (query : TopLevelOperator)
    (records : list DatabaseRecord) (r : DatabaseRecord) :
  wf_records records -> In r records ->
  let matched :=
    filter (fun d => is_true (topLevelPredicate fts query d))
           (map data (filter is_live records)) in
  {| type := if existsb (str_eqb (stringify (JObj (data r))))
                        (map (fun d => stringify (JObj d)) matched)
             then D else type r;
     data := data r |}
  = tombstone fts query r.
Proof.
  intros Hwf Hin matched. unfold tombstone.
  destruct r as [ [ | ] d ]; cbn [type data]; unfold wf_records in Hwf.
  - destruct (existsb (str_eqb (stringify (JObj d)))
                      (map (fun d => stringify (JObj d)) matched)) eqn:Hex.
    + apply existsb_str_eqb, in_map_iff in Hex as (d' & Heq & Hd').
      apply filter_In in Hd' as [Hd' Hm].
      apply in_map_iff in Hd' as (r' & <- & Hr').
      apply filter_In in Hr' as [Hr' _].
      rewrite Forall_forall in Hwf.
      pose proof (Hwf _ Hr') as W1. pose proof (Hwf _ Hin) as W2.
      cbn [data] in W2.
      apply (stringify_inj _ _ W1 W2) in Heq. injection Heq as Hd.
      subst d.
      destruct (topLevelPredicate fts query (data r')) as [ [ | ] | | | ];
        try discriminate. reflexivity.
    + destruct (topLevelPredicate fts query d) as [ [ | ] | | | ] eqn:Hp;
        try reflexivity.
      exfalso. apply not_true_iff_false in Hex. apply Hex.
      apply existsb_str_eqb, in_map_iff. exists d. split; [ reflexivity | ].
      apply filter_In. split; [ | rewrite Hp; reflexivity ].
      apply in_map_iff. exists {| type := E; data := d |}.
      split; [ reflexivity | ]. apply filter_In. split; [ exact Hin | reflexivity ].
  - destruct (existsb _ _); reflexivity.
Qed.

Lemma tombstone_data (fts : list str) (query : TopLevelOperator)
    (r : DatabaseRecord) :
  data (tombstone fts query r) = data r.
Proof.
  unfold tombstone. destruct (type r); [ | reflexivity ].
  destruct (topLevelPredicate fts query (data r)) as [ [ | ] | | | ];
    reflexivity.
Qed.

Lemma tombstone_live (fts : list str) (query : TopLevelOperator)
    (r : DatabaseRecord) :
  type (tombstone fts query r) = E ->
  type r = E /\ ~ matches fts query (data r).
Proof.
  unfold tombstone, matches.
  destruct (type r) eqn:Ht; [ | intros H; rewrite Ht in H; discriminate ].
  destruct (topLevelPredicate fts query (data r)) as [ [ | ] | | | ];
    intros H; try discriminate; split; try reflexivity; discriminate.
Qed.

Lemma live_settle (fts : list str) (query : TopLevelOperator)
    (records : list DatabaseRecord) :
  Forall (fun r => type r = E -> settles fts query (data r)) records ->
  Forall (fun d => exists b, topLevelPredicate fts query d = Ok b)
         (map data (filter is_live records)).
Proof.
  induction 1 as [ | r l Hr _ IH ]; cbn [filter map]; [ constructor | ].
  unfold is_live at 1. destruct (type r); [ | exact IH ].
  cbn [map]. constructor; [ apply Hr; reflexivity | exact IH ].
Qed.

Lemma find_plain (fts : list str) (query : TopLevelOperator) (st : store)
    (content : str) (records : list DatabaseRecord) :
  file st = Some content -> read_log content = Ok records ->
  Forall (fun r => type r = E -> settles fts query (data r)) records ->
  find fts query no_options st
  = (Ok (Whole (filter (fun d => is_true (topLevelPredicate fts query d))
                       (map data (filter is_live records)))), st).
Proof.
  intros Hf Hr Hs.
  unfold find, bind, readFromFile, readFile, lift, ret. cbn [file].
  unfold bind. rewrite Hf. cbv beta iota. rewrite Hr.
  rewrite (filter_o_settled _ _ (live_settle fts query records Hs)).
  reflexivity.
Qed.

(** C1, as the code has it.  On a log that the reader parses, with the gate
    free and the predicate returning on the live records, [delete] rewrites
    the file as the sequence of the entries read, where exactly the live
    entries whose record matches get the tag [D] and every other entry keeps
    its tag; each entry keeps its record and its place in the sequence.
    Reading the new file gives that sequence back, and no record that a
    later [find] returns matches the deleted predicate.  When the log is
    as the writer leaves it, the line of an entry that keeps its tag is the
    same text at the same place in the new file.  The records read are
    objects whose numbers are safe integers and whose keys are no integer
    indices, and the predicate reads their own members. *)
Theorem delete_tombstones (fts : list str) (query : TopLevelOperator)
    (st : store) (content : str) (records : list DatabaseRecord) :
  file st = Some content -> locks st = O -> read_log content = Ok records ->
  js_records records ->
  Forall (fun r => type r = E -> query_readable fts query (data r)) records ->
  Forall (fun r => type r = E -> settles fts query (data r)) records ->
  let records' := map (tombstone fts query) records in
  let st' := {| file := Some (write_log records'); locks := O |} in
  delete fts query st = (Ok tt, st') /\
  fst (readFromFile st') = Ok records' /\
  (forall i r, nth_error records i = Some r ->
     nth_error records' i = Some (tombstone fts query r) /\
     data (tombstone fts query r) = data r /\
     (type (tombstone fts query r) = D <->
      type r = D \/ (type r = E /\ matches fts query (data r)))) /\
  (forall q options results,
     fst (find fts q options st') = Ok (Whole results) ->
     forall d, In d results -> ~ matches fts query d) /\
  (content = write_log records ->
   forall i r, nth_error records i = Some r ->
     type (tombstone fts query r) = type r ->
     nth_error (split_lines (write_log records')) i
     = nth_error (split_lines content) i).
Proof.
  intros Hf Hl Hr _ _ Hs records' st'.
  pose proof (read_log_wf content records Hr) as Hwf.
  assert (Hwf' : wf_records records').
  { unfold wf_records, records'. apply Forall_map.
    unfold wf_records in Hwf. rewrite Forall_forall in *.
    intros r Hin. rewrite tombstone_data. apply Hwf, Hin. }
  assert (Hread : read_log (write_log records') = Ok records').
  { apply read_log_write_log, Hwf'. }
  split; [ | split; [ | split; [ | split ] ] ].
  - unfold delete, bind at 1, lock. rewrite Hl. cbn [Nat.eqb file locks].
    unfold bind at 1, readFromFile at 1, bind at 1, readFile, lift.
    cbn [file]. rewrite Hf. cbv beta iota. rewrite Hr.
    unfold bind at 1.
    rewrite (find_plain fts query {| file := Some content; locks := 1 |}
               content records eq_refl Hr Hs).
    unfold bind, writeToFile, writeFileSync, unlock. cbn [file locks pred].
    unfold st', records'. f_equal. f_equal. f_equal. f_equal.
    apply map_ext_in. intros r Hin. cbn [stringify_found].
    apply (retag_is_tombstone fts query records r Hwf Hin).
  - unfold readFromFile, bind, readFile, lift, st'. cbn [file fst].
    exact Hread.
  - intros i r Hi. split; [ | split ].
    + unfold records'. rewrite nth_error_map, Hi. reflexivity.
    + apply tombstone_data.
    + unfold tombstone, matches. destruct (type r) eqn:Ht.
      * destruct (topLevelPredicate fts query (data r)) as [ [ | ] | | | ];
          cbn [type]; rewrite ?Ht; split; intros H;
          try reflexivity; try discriminate;
          try (right; split; reflexivity);
          destruct H as [H | [_ H]]; discriminate.
      * rewrite Ht. split; [ intros _; left; reflexivity | reflexivity ].
  - intros q options results Hfind d Hd.
    destruct (find_whole_live fts q options st' (write_log records') records'
                results eq_refl Hread Hfind d Hd) as [_ (r' & Hin & Ht & Hdata)].
    unfold records' in Hin. apply in_map_iff in Hin as (r & <- & _).
    rewrite tombstone_data in Hdata. subst d.
    apply (tombstone_live fts query r Ht).
  - intros -> i r Hi Hsame.
    rewrite (nth_line_of_write_log records i r Hi).
    rewrite (nth_line_of_write_log records' i (tombstone fts query r)).
    + unfold line_text. rewrite tombstone_data, Hsame. reflexivity.
    + unfold records'. rewrite nth_error_map, Hi. reflexivity.
Qed.

Lemma delete_tombstones_witness :
  let a := [(chars "name", JStr (chars "a")); (chars "age", JNum 3)] in
  let b := [(chars "name", JStr (chars "b")); (chars "age", JNum 1)] in
  let c := [(chars "name", JStr (chars "c")); (chars "age", JNum 5)] in
  let records := [ {| type := E; data := a |}; {| type := E; data := b |};
                   {| type := D; data := c |} ] in
  let query := Fields [(chars "age", op_gt 1)] in
  let st := {| file := Some (write_log records); locks := O |} in
  delete [] query st
  = (Ok tt,
     {| file := Some (write_log [ {| type := D; data := a |};
                                  {| type := E; data := b |};
                                  {| type := D; data := c |} ]);
        locks := O |}) /\
  fst (find [] (Fields []) no_options (snd (delete [] query st)))
  = Ok (Whole [b]).
Proof.
  intros a b c records query st.
  destruct (delete_tombstones [] query st (write_log records) records)
    as [H _].
  - reflexivity.
  - reflexivity.
  - vm_compute. reflexivity.
  - repeat constructor; simpl; intuition discriminate.
  - repeat constructor.
  - repeat constructor; intros _; eexists; reflexivity.
  - split; [ exact H | ]. rewrite H. vm_compute. reflexivity.
Defined.

(** C1, as stated, fails on a log with a blank line and with white space
    inside a payload: no record matches the predicate, yet the file is not
    kept line for line, since a rewritten line is the JSON text of the
    parsed record and blank lines are dropped. *)
Lemma delete_rewrites_lines :
  let old := chars "E{ }" ++ [newline] ++ [newline] ++ chars "E{}" ++ [newline] in
  let new := chars "E{}" ++ [newline] ++ chars "E{}" ++ [newline] in
  let st := {| file := Some old; locks := O |} in
  let query := Or [] in
  (forall d, ~ matches [] query d) /\
  delete [] query st = (Ok tt, {| file := Some new; locks := O |}) /\
  ~ (forall i line, nth_error (split_lines old) i = Some line ->
                    nth_error (split_lines new) i = Some line).
Proof.
  intros old new st query. split; [ | split ].
  - intros d H. discriminate H.
  - vm_compute. reflexivity.
  - intros H. specialize (H 0%nat (chars "E{ }") eq_refl).
    vm_compute in H. discriminate.
Qed.

(** ** Full-text search *)

Lemma all_ascii_complete (c : ascii) : In c all_ascii.
Proof.
  unfold all_ascii. apply in_map_iff. exists (nat_of_ascii c).
  split; [ apply ascii_nat_embedding | ].
  apply in_seq. pose proof (nat_ascii_bounded c). lia.
Qed.

Lemma forall_ascii (P : ascii -> bool) :
  forallb P all_ascii = true -> forall c, P c = true.
Proof.
  intros H c. rewrite forallb_forall in H. apply H, all_ascii_complete.
Qed.

Lemma plain_char_literal (c : ascii) :
  is_syntax_char c = false ->
  Ascii.eqb c backslash = false /\ Ascii.eqb c "."%char = false /\
  Ascii.eqb c ")"%char = false.
Proof.
  intros H.
  assert (G : implb (negb (is_syntax_char c))
                (negb (Ascii.eqb c backslash) && negb (Ascii.eqb c "."%char)
                 && negb (Ascii.eqb c ")"%char)) = true).
  { revert c H. intros c _. revert c. apply forall_ascii. vm_compute. reflexivity. }
  rewrite H in G. cbn [negb implb] in G.
  apply andb_true_iff in G as [G G3]. apply andb_true_iff in G as [G1 G2].
  rewrite negb_true_iff in *. auto.
Qed.

Lemma canonicalize_word (x c : ascii) :
  is_word_char c = true -> canonicalize x = canonicalize c ->
  is_word_char x = true.
Proof.
  intros Hc He.
  assert (G : forallb (fun a =>
                forallb (fun b =>
                  implb (is_word_char b
                         && Ascii.eqb (canonicalize a) (canonicalize b))
                        (is_word_char a)) all_ascii) all_ascii = true)
    by (vm_compute; reflexivity).
  pose proof (forall_ascii _ G x) as G1. cbv beta in G1.
  pose proof (forall_ascii _ G1 c) as G2. cbv beta in G2.
  rewrite Hc, He, Ascii.eqb_refl in G2. exact G2.
Qed.

Lemma RegExp_new_plain (s tail : str) (p : list atom) :
  forallb (fun c => negb (is_syntax_char c)) s = true ->
  RegExp_new tail = Ok p ->
  RegExp_new (s ++ tail) = Ok (map Lit s ++ p).
Proof.
  intros Hs Ht. induction s as [ | c s IHs ]; [ exact Ht | ].
  cbn [forallb] in Hs. apply andb_true_iff in Hs as [Hc Hs].
  apply negb_true_iff in Hc.
  destruct (plain_char_literal c Hc) as (H1 & H2 & H3).
  cbn [app RegExp_new map]. rewrite H1, H2, H3, Hc, (IHs Hs). reflexivity.
Qed.

Lemma RegExp_new_text_pattern (s : str) :
  forallb (fun c => negb (is_syntax_char c)) s = true ->
  RegExp_new (text_pattern s) = Ok (WordB :: map Lit s ++ [WordB]).
Proof.
  intros Hs. unfold text_pattern.
  change (chars "\b" ++ s ++ chars "\b")
    with (backslash :: "b"%char :: s ++ [backslash; "b"%char]).
  change (RegExp_new (backslash :: "b"%char :: ?t))
    with (obind (RegExp_new t) (fun p => Ok (WordB :: p))).
  rewrite (RegExp_new_plain s [backslash; "b"%char] [WordB] Hs); reflexivity.
Qed.

Lemma some_pure {A : Type} (g : A -> bool) (l : list A) :
  some (fun x => Ok (g x)) l = Ok (existsb g l).
Proof.
  induction l as [ | x l IH ]; [ reflexivity | ].
  cbn [some existsb]. destruct (g x); [ reflexivity | exact IH ].
Qed.

Lemma map_canonicalize_cons (mid : str) (c : ascii) (s : str) :
  map canonicalize mid = map canonicalize (c :: s) ->
  exists x mid', mid = x :: mid' /\ canonicalize x = canonicalize c /\
                 map canonicalize mid' = map canonicalize s.
Proof.
  destruct mid as [ | x mid' ]; [ discriminate | ].
  cbn [map]. intros H. inversion H. exists x, mid'. auto.
Qed.

Lemma match_literals (s : str) (prev : option ascii) (t : str) :
  match_here (map Lit s ++ [WordB]) prev t = true <->
  exists mid rest,
    t = mid ++ rest /\
    map canonicalize mid = map canonicalize s /\
    xorb (is_word (last_or prev mid)) (is_word (hd_error rest)) = true.
Proof.
  revert prev t. induction s as [ | c s IHs ]; intros prev t.
  - cbn [map app match_here]. rewrite andb_true_r. split.
    + intros H. exists [], t. auto.
    + intros (mid & rest & -> & Hm & H).
      destruct mid; [ exact H | discriminate ].
  - cbn [map app match_here]. split.
    + destruct t as [ | x t' ]; [ discriminate | ].
      intros H. apply andb_true_iff in H as [Hx H].
      apply Ascii.eqb_eq in Hx.
      apply IHs in H as (mid & rest & -> & Hm & H).
      exists (x :: mid), rest. cbn [map]. rewrite Hx, Hm. auto.
    + intros (mid & rest & -> & Hm & H).
      apply map_canonicalize_cons in Hm as (x & mid' & -> & Hx & Hm).
      cbn [app]. rewrite Hx, Ascii.eqb_refl. cbn [andb].
      apply IHs. exists mid', rest. auto.
Qed.

Lemma search_from_spec (p : list atom) (prev : option ascii) (t : str) :
  search_from p prev t = true <->
  exists pre post,
    t = pre ++ post /\ match_here p (last_or prev pre) post = true.
Proof.
  revert prev. induction t as [ | x t IHt ]; intros prev; cbn [search_from].
  - rewrite orb_false_r. split.
    + intros H. exists [], []. auto.
    + intros (pre & post & Heq & H).
      symmetry in Heq. apply app_eq_nil in Heq as [-> ->]. exact H.
  - rewrite orb_true_iff, IHt. split.
    + intros [H | (pre & post & -> & H)].
      * exists [], (x :: t). auto.
      * exists (x :: pre), post. auto.
    + intros (pre & post & Heq & H). destruct pre as [ | y pre ].
      * left. cbn [app] in Heq. subst post. exact H.
      * right. cbn [app] in Heq. inversion Heq; subst.
        exists pre, post. auto.
Qed.

Lemma head_word (mid s : str) :
  map canonicalize mid = map canonicalize s ->
  is_word (hd_error s) = true -> forall post,
  is_word (hd_error (mid ++ post)) = true.
Proof.
  intros Hm Hw post. destruct s as [ | c s ]; [ discriminate Hw | ].
  apply map_canonicalize_cons in Hm as (x & mid' & -> & Hx & _).
  cbn [app hd_error is_word] in *. exact (canonicalize_word x c Hw Hx).
Qed.

Lemma last_word (s : str) :
  forall mid p q,
    map canonicalize mid = map canonicalize s ->
    (is_word q = true -> is_word p = true) ->
    is_word (last_or q s) = true -> is_word (last_or p mid) = true.
Proof.
  induction s as [ | c s IHs ]; intros mid p q Hm Hpq Hw.
  - destruct mid; [ | discriminate ]. exact (Hpq Hw).
  - apply map_canonicalize_cons in Hm as (x & mid' & -> & Hx & Hm).
    unfold last_or in *. cbn [fold_left] in *.
    apply (IHs mid' (Some x) (Some c) Hm); [ | exact Hw ].
    cbn [is_word]. intros Hc. exact (canonicalize_word x c Hc Hx).
Qed.

Lemma plain_search_parts (s : str) :
  plain_search s = true ->
  forallb (fun c => negb (is_syntax_char c)) s = true /\
  is_word (hd_error s) = true /\ is_word (last_or None s) = true.
Proof.
  unfold plain_search. intros H.
  apply andb_true_iff in H as [H H3]. apply andb_true_iff in H as [H1 H2].
  auto.
Qed.

Lemma test_whole_word (s text : str) :
  is_word (hd_error s) = true -> is_word (last_or None s) = true ->
  RegExp_test (WordB :: map Lit s ++ [WordB]) text = true <->
  whole_word_occurrence s text.
Proof.
  intros Hh Hl. unfold RegExp_test, whole_word_occurrence.
  assert (Hlast : forall mid prev,
             map canonicalize mid = map canonicalize s ->
             is_word (last_or prev mid) = true).
  { intros mid prev Hm. apply (last_word s mid prev None Hm); [ | exact Hl ].
    discriminate. }
  rewrite search_from_spec. split.
  - intros (pre & post & -> & H).
    cbn [match_here] in H. apply andb_true_iff in H as [Hb H].
    apply match_literals in H as (mid & rest & -> & Hm & He).
    rewrite (Hlast mid _ Hm) in He.
    rewrite (head_word mid s Hm Hh rest) in Hb.
    exists pre, mid, rest. split; [ reflexivity | ]. split; [ exact Hm | ].
    split.
    + destruct (is_word (last_or None pre)); [ discriminate | reflexivity ].
    + destruct (is_word (hd_error rest)); [ discriminate | reflexivity ].
  - intros (pre & mid & post & -> & Hm & Hb & He).
    exists pre, (mid ++ post). split; [ reflexivity | ].
    cbn [match_here]. apply andb_true_iff. split.
    + rewrite Hb, (head_word mid s Hm Hh post). reflexivity.
    + apply match_literals. exists mid, post.
      split; [ reflexivity | ]. split; [ exact Hm | ].
      rewrite (Hlast mid _ Hm), He. reflexivity.
Qed.

(** C5, as the code has it.  For a search string that has no pattern
    character and begins and ends with a word character, on a record whose
    full-text fields can be read and turned into text, the [$text]
    predicate returns, and it is [true] exactly when the string occurs as a
    whole word, letter case aside, in the string form of the record's value
    for at least one of the configured full-text fields. *)
Theorem text_search (fts : list str) (data : record) (search : str) :
  plain_search search = true -> text_readable fts data ->
  settles fts (Text search) data /\
  (matches fts (Text search) data <->
   exists field, In field fts /\
                 whole_word_occurrence search (to_string (get data field))).
Proof.
  intros Hp _. destruct (plain_search_parts search Hp) as (Hs & Hh & Hl).
  unfold settles, matches. cbn [topLevelPredicate].
  rewrite (RegExp_new_text_pattern search Hs). cbn [obind].
  rewrite (some_pure (fun text =>
             RegExp_test (WordB :: map Lit search ++ [WordB]) (to_string text))).
  split; [ eexists; reflexivity | ].
  split.
  - intros H. injection H as H. apply existsb_exists in H as (v & Hv & Ht).
    apply in_map_iff in Hv as (field & <- & Hf).
    exists field. split; [ exact Hf | ].
    apply (test_whole_word search _ Hh Hl), Ht.
  - intros (field & Hf & Ho). f_equal. apply existsb_exists.
    exists (get data field). split.
    + apply in_map_iff. exists field. auto.
    + apply (test_whole_word search _ Hh Hl), Ho.
Qed.

Lemma text_search_witness :
  let fts := [chars "notes"] in
  let flap := [(chars "notes", JStr (chars "Mind THE CAT-FLAP, please"))] in
  (matches fts (Text (chars "cat")) [(chars "notes", JStr (chars "The Cat sat"))] <->
   exists field, In field fts /\
     whole_word_occurrence (chars "cat")
       (to_string (get [(chars "notes", JStr (chars "The Cat sat"))] field))) /\
  matches fts (Text (chars "cat")) [(chars "notes", JStr (chars "The Cat sat"))] /\
  ~ matches fts (Text (chars "cat")) [(chars "notes", JStr (chars "category"))] /\
  (matches fts (Text (chars "the cat-flap")) flap <->
   exists field, In field fts /\
     whole_word_occurrence (chars "the cat-flap")
       (to_string (get flap field))) /\
  matches fts (Text (chars "the cat-flap")) flap.
Proof.
  intros fts flap. split; [ | split; [ | split; [ | split ] ] ].
  - apply (text_search fts _ (chars "cat")); [ reflexivity | ].
    repeat constructor.
  - reflexivity.
  - intros H. vm_compute in H. discriminate.
  - apply (text_search fts flap (chars "the cat-flap")); [ reflexivity | ].
    repeat constructor.
  - reflexivity.
Defined.

(** C5, as stated, fails for a search string with a pattern character: the
    predicate for [c.t] is [true] on a field holding [cat], in which [c.t]
    does not occur. *)
Lemma text_search_pattern_character :
  let fts := [chars "notes"] in
  let data := [(chars "notes", JStr (chars "cat"))] in
  matches fts (Text (chars "c.t")) data /\
  ~ (exists field, In field fts /\
       whole_word_occurrence (chars "c.t") (to_string (get data field))).
Proof.
  intros fts data. split; [ reflexivity | ].
  intros (field & [<- | []] & pre & mid & post & Htext & Hm & _).
  change (to_string (get data (chars "notes"))) with (chars "cat") in Htext.
  assert (Hlen : length mid = 3%nat).
  { rewrite <- (length_map canonicalize mid), Hm. reflexivity. }
  assert (Hall : length (pre ++ mid ++ post) = 3%nat)
    by (rewrite <- Htext; reflexivity).
  rewrite !length_app, Hlen in Hall.
  destruct pre; [ | cbn [length] in Hall; lia ].
  destruct post; [ | cbn [length] in Hall; lia ].
  cbn [app] in Htext. rewrite app_nil_r in Htext. subst mid.
  vm_compute in Hm. discriminate.
Qed.

(** ** Ordering a result set *)

Lemma str_ltb_irrefl (s : str) : str_ltb s s = false.
Proof.
  induction s as [ | c s IH ]; [ reflexivity | ].
  cbn [str_ltb]. rewrite N.ltb_irrefl. exact IH.
Qed.

Lemma js_gt_irrefl (v : value) : js_gt v v = false.
Proof.
  destruct v as [ [ | b | n | s | l | m ] | ]; cbn [js_gt to_number];
    try reflexivity.
  - destruct b; reflexivity.
  - rewrite Z.gtb_ltb. apply Z.ltb_irrefl.
  - apply str_ltb_irrefl.
Qed.

(** On two records with the same value in the sorted field the comparator
    answers [-1 * sOrder] whichever way they are passed; it never answers
    that they are equal. *)
Lemma sort_compare_tie (sKey : str) (sOrder : Z) (a b : record) :
  get a sKey = get b sKey ->
  sort_compare sKey sOrder a b = -1 * sOrder /\
  sort_compare sKey sOrder b a = -1 * sOrder.
Proof.
  intros H. unfold sort_compare. rewrite H, js_gt_irrefl. split; reflexivity.
Qed.

(** C4 on the code.  The claim's own example is ordered as it says.  Two
    records of the same age come out of an ascending pass in the reverse of
    their prior order, because the comparator reports the later one as
    smaller; sorting by name and then by age therefore leaves equal ages
    ordered by name downwards, not upwards.  A descending pass keeps the
    prior order of equal ages. *)
Theorem sort_pass_on_ties :
  let age n : record := [(chars "age", JNum n)] in
  let person s n : record := [(chars "name", JStr (chars s)); (chars "age", JNum n)] in
  let log rs := {| file := Some (write_log (map (fun r => {| type := E; data := r |}) rs));
                   locks := O |} in
  let by_age := {| sort := Some [(chars "age", 1)]; projection := None |} in
  let by_name_age :=
    {| sort := Some [(chars "name", 1); (chars "age", 1)]; projection := None |} in
  fst (find [] (Fields []) by_age (log [age 3; age 1; age 2]))
  = Ok (Whole [age 1; age 2; age 3]) /\
  sort_compare (chars "age") 1 (person "a"%string 1) (person "b"%string 1) = -1 /\
  sort_compare (chars "age") 1 (person "b"%string 1) (person "a"%string 1) = -1 /\
  fst (find [] (Fields []) by_age (log [person "a"%string 1; person "b"%string 1]))
  = Ok (Whole [person "b"%string 1; person "a"%string 1]) /\
  fst (find [] (Fields []) by_name_age
         (log [person "b"%string 1; person "a"%string 1; person "c"%string 0]))
  = Ok (Whole [person "c"%string 0; person "b"%string 1; person "a"%string 1]) /\
  fst (find [] (Fields [])
         {| sort := Some [(chars "age", -1)]; projection := None |}
         (log [person "a"%string 1; person "b"%string 1]))
  = Ok (Whole [person "a"%string 1; person "b"%string 1]).
Proof.
  intros age person log by_age by_name_age.
  repeat split; vm_compute; reflexivity.
Qed.

(** ** Further properties of [find] *)

Lemma find_steps (fts : list str) (q : TopLevelOperator)
    (options : QueryOptions) (st : store) (content : str)
    (records : list DatabaseRecord) :
  file st = Some content -> read_log content = Ok records ->
  find fts q options st
  = (obind (filter_o (topLevelPredicate fts q)
                     (map data (filter is_live records)))
       (fun kept => obind (sort_all options kept)
          (fun rs => Ok (shape options rs))), st).
Proof.
  intros Hf Hr.
  unfold find, bind, readFromFile, readFile, lift, ret, sort_all, shape.
  cbn [file]. unfold bind. rewrite Hf. cbv beta iota. rewrite Hr.
  destruct (filter_o _ _) as [ kept | | | ]; try reflexivity.
  cbn [obind].
  destruct (match sort options with
            | Some entries => fold_left sort_pass entries (Ok kept)
            | None => Ok kept
            end) as [ rs | | | ]; try reflexivity.
  cbn [obind]. destruct (projection options); reflexivity.
Qed.

(** X1. [find] without options returns the records of the live entries that
    match the predicate tree, in the order of the log: a record is in the
    result exactly when a live entry holds it and it matches. *)
Theorem find_selects_live_matches (fts : list str) (q : TopLevelOperator)
    (st : store) (content : str) (records : list DatabaseRecord) :
  file st = Some content -> read_log content = Ok records ->
  Forall (fun r => type r = E -> settles fts q (data r)) records ->
  exists results,
    find fts q no_options st = (Ok (Whole results), st) /\
    results = filter (fun d => is_true (topLevelPredicate fts q d))
                     (map data (filter is_live records)) /\
    (forall d, In d results <->
               exists r, In r records /\ type r = E /\ data r = d /\
                         matches fts q d).
Proof.
  intros Hf Hr Hs. eexists. split; [ | split; [ reflexivity | ] ].
  - rewrite (find_steps fts q no_options st content records Hf Hr).
    rewrite (filter_o_settled _ _ (live_settle fts q records Hs)).
    reflexivity.
  - intros d. rewrite filter_In, in_map_iff. unfold matches. split.
    + intros [(r & Hd & Hin) Hm]. apply filter_In in Hin as [Hin Hl].
      exists r. split; [ exact Hin | ].
      split; [ unfold is_live in Hl; destruct (type r); [ reflexivity | discriminate ] | ].
      split; [ exact Hd | ].
      destruct (topLevelPredicate fts q d) as [ [ | ] | | | ];
        try discriminate. reflexivity.
    + intros (r & Hin & Ht & Hd & Hm). split.
      * exists r. split; [ exact Hd | ]. apply filter_In.
        split; [ exact Hin | unfold is_live; rewrite Ht; reflexivity ].
      * rewrite Hm. reflexivity.
Qed.

Lemma find_selects_live_matches_witness :
  let a := [(chars "name", JStr (chars "a")); (chars "age", JNum 3)] in
  let b := [(chars "name", JStr (chars "b")); (chars "age", JNum 1)] in
  let c := [(chars "name", JStr (chars "c")); (chars "age", JNum 5)] in
  let records := [ {| type := E; data := a |}; {| type := E; data := b |};
                   {| type := D; data := c |} ] in
  let st := {| file := Some (write_log records); locks := O |} in
  exists results,
    find [] (Fields [(chars "age", op_gt 1)]) no_options st
    = (Ok (Whole results), st) /\ results = [a].
Proof.
  intros a b c records st.
  destruct (find_selects_live_matches [] (Fields [(chars "age", op_gt 1)])
              st (write_log records) records) as (results & H1 & H2 & _).
  - reflexivity.
  - vm_compute. reflexivity.
  - repeat constructor; intros _; eexists; reflexivity.
  - exists results. split; [ exact H1 | ]. rewrite H2. reflexivity.
Defined.

Lemma project_keys (entries : list (str * bool)) (r : record) :
  map fst (project entries r) = map fst (filter (fun e => snd e) entries).
Proof.
  unfold project. rewrite map_map. reflexivity.
Qed.

Lemma project_values (entries : list (str * bool)) (r : record)
    (key : str) (v : value) :
  In (key, v) (project entries r) -> v = get r key.
Proof.
  unfold project. intros H. apply in_map_iff in H as (e & He & _).
  inversion He. reflexivity.
Qed.

(** X2. A projection over distinct keys that no object inherits changes
    neither which records [find] selects nor their order: the result is
    the result without projection, each record replaced by an object that
    has exactly the keys of the projection whose flag is truthy, in the
    projection's order, each with the record's value for that key
    ([undefined] when the record has none).  When [find] without the
    projection does not return, neither does it with it. *)
Theorem find_projection (fts : list str) (q : TopLevelOperator)
    (order : option (list (str * Z))) (entries : list (str * bool))
    (st : store) :
  NoDup (map fst entries) ->
  Forall (fun e => inherited_name (fst e) = false) entries ->
  let plain := {| sort := order; projection := None |} in
  let projected := {| sort := order; projection := Some entries |} in
  (forall rs, fst (find fts q plain st) = Ok (Whole rs) ->
     fst (find fts q projected st)
     = Ok (Projected (map (project entries) rs))) /\
  (forall rs, fst (find fts q projected st) = Ok (Projected rs) ->
     exists ws, fst (find fts q plain st) = Ok (Whole ws) /\
                rs = map (project entries) ws) /\
  (forall (r : record) (key : str) (v : value),
     map fst (project entries r) = map fst (filter (fun e => snd e) entries) /\
     (In (key, v) (project entries r) -> v = get r key)).
Proof.
  intros _ _ plain projected.
  assert (G : forall o : outcome (list record),
             (fst (find fts q plain st) = obind o (fun rs => Ok (Whole rs))) ->
             (fst (find fts q projected st)
              = obind o (fun rs => Ok (Projected (map (project entries) rs)))) ->
             (forall rs, fst (find fts q plain st) = Ok (Whole rs) ->
                fst (find fts q projected st)
                = Ok (Projected (map (project entries) rs))) /\
             (forall rs, fst (find fts q projected st) = Ok (Projected rs) ->
                exists ws, fst (find fts q plain st) = Ok (Whole ws) /\
                           rs = map (project entries) ws)).
  { intros o H1 H2. rewrite H1, H2. destruct o as [ rs0 | | | ]; cbn [obind].
    - split.
      + intros rs H. inversion H. reflexivity.
      + intros rs H. inversion H. exists rs0. split; reflexivity.
    - split; intros rs H; discriminate.
    - split; intros rs H; discriminate.
    - split; intros rs H; discriminate. }
  assert (K : exists o : outcome (list record),
             fst (find fts q plain st) = obind o (fun rs => Ok (Whole rs)) /\
             fst (find fts q projected st)
             = obind o (fun rs => Ok (Projected (map (project entries) rs)))).
  { unfold find, bind, readFromFile, readFile, lift, ret. cbn [file].
    unfold bind. destruct (file st) as [ content | ].
    - destruct (read_log content) as [ records | e | | ].
      + cbn [sort projection plain projected].
        destruct (filter_o _ _) as [ kept | e | | ].
        * destruct (match order with
                    | Some es => fold_left sort_pass es (Ok kept)
                    | None => Ok kept
                    end) as [ rs | e | | ] eqn:Es.
          -- exists (Ok rs). split; reflexivity.
          -- exists (Throw e). split; reflexivity.
          -- exists Hang. split; reflexivity.
          -- exists Unmodelled. split; reflexivity.
        * exists (Throw e). split; reflexivity.
        * exists Hang. split; reflexivity.
        * exists Unmodelled. split; reflexivity.
      + exists (Throw e). split; reflexivity.
      + exists Hang. split; reflexivity.
      + exists Unmodelled. split; reflexivity.
    - exists (Throw ENOENT). split; reflexivity. }
  destruct K as (o & H1 & H2). destruct (G o H1 H2) as [G1 G2].
  split; [ exact G1 | split; [ exact G2 | ] ].
  intros r key v. split; [ apply project_keys | apply project_values ].
Qed.

Lemma find_projection_witness :
  let a := [(chars "name", JStr (chars "a")); (chars "age", JNum 3)] in
  let st := {| file := Some (write_log [ {| type := E; data := a |} ]);
               locks := O |} in
  let entries := [(chars "age", true); (chars "name", false);
                  (chars "city", true)] in
  fst (find [] (Fields []) {| sort := None; projection := Some entries |} st)
  = Ok (Projected [[(chars "age", Some (JNum 3)); (chars "city", None)]]).
Proof.
  intros a st entries.
  refine (proj1 (find_projection [] (Fields []) None entries st _ _) [a] _).
  - repeat constructor; simpl; intuition discriminate.
  - repeat constructor.
  - vm_compute. reflexivity.
Defined.

(** ** Sorting only reorders *)

Lemma insert_pivot_perm {A : Type} (cmp : A -> A -> Z) (p : A) (l : list A) :
  Permutation (insert_pivot cmp p l) (p :: l).
Proof.
  induction l as [ | x l IH ]; cbn [insert_pivot].
  - apply Permutation_refl.
  - destruct (cmp p x <? 0); [ apply Permutation_refl | ].
    apply (Permutation_trans (perm_skip x IH)). apply perm_swap.
Qed.

Lemma js_sort_perm {A : Type} (cmp : A -> A -> Z) (l : list A) :
  Permutation (js_sort cmp l) l.
Proof.
  unfold js_sort.
  assert (G : forall acc,
             Permutation (fold_left (fun s p => insert_pivot cmp p s) l acc)
                         (acc ++ l)).
  { induction l as [ | a l IH ]; intros acc; cbn [fold_left].
    - rewrite app_nil_r. apply Permutation_refl.
    - apply (Permutation_trans (IH _)).
      apply (Permutation_trans
               (Permutation_app_tail l (insert_pivot_perm cmp a acc))).
      cbn [app]. apply Permutation_middle. }
  exact (G []).
Qed.

Lemma sort_passes_perm (entries : list (str * Z)) (rs rs' : list record) :
  fold_left sort_pass entries (Ok rs) = Ok rs' -> Permutation rs' rs.
Proof.
  revert rs. induction entries as [ | e entries IH ]; intros rs H;
    cbn [fold_left] in H.
  - inversion H. apply Permutation_refl.
  - unfold sort_pass at 2 in H. cbn [obind] in H.
    destruct (comparable (map (fun r => get r (fst e)) rs)).
    + apply (Permutation_trans (IH _ H)). apply js_sort_perm.
    + exfalso. clear -H. induction entries as [ | e' entries IH' ];
        cbn [fold_left] in H; [ discriminate | ].
      apply IH'. exact H.
Qed.

(** X3. The [sort] option only reorders: whenever [find] with a sort mapping
    returns, [find] without it returns too, and the sorted result is a
    permutation of the unsorted one (no record is added, dropped or
    repeated). *)
Theorem find_sort_permutes (fts : list str) (q : TopLevelOperator)
    (entries : list (str * Z)) (st : store) (sorted : list record) :
  fst (find fts q {| sort := Some entries; projection := None |} st)
  = Ok (Whole sorted) ->
  exists plain,
    fst (find fts q no_options st) = Ok (Whole plain) /\
    Permutation sorted plain.
Proof.
  unfold find, bind, readFromFile, readFile, lift, ret. cbn [file].
  unfold bind. destruct (file st) as [ content | ]; [ | discriminate ].
  destruct (read_log content) as [ records | e | | ]; try discriminate.
  cbn [sort projection no_options].
  destruct (filter_o _ _) as [ kept | e | | ]; try discriminate.
  destruct (fold_left sort_pass entries (Ok kept)) as [ rs | e | | ] eqn:Es;
    try discriminate.
  cbn [fst]. intros H. inversion H; subst.
  exists kept. split; [ reflexivity | ].
  exact (sort_passes_perm entries kept sorted Es).
Qed.

Lemma find_sort_permutes_witness :
  let age n : record := [(chars "age", JNum n)] in
  let st := {| file := Some (write_log
                 (map (fun r => {| type := E; data := r |})
                      [age 3; age 1; age 2]));
               locks := O |} in
  exists plain,
    fst (find [] (Fields []) no_options st) = Ok (Whole plain) /\
    Permutation [age 1; age 2; age 3] plain.
Proof.
  intros age st.
  apply (find_sort_permutes [] (Fields []) [(chars "age", 1)] st).
  vm_compute. reflexivity.
Defined.

(** ** The last sort field orders the result *)

Lemma sort_compare_numbers (k : str) (o : Z) (p x : record) :
  has_number k p -> has_number k x ->
  (sort_compare k o p x <? 0)
  = (if num_at k p >? num_at k x then o <? 0 else 0 <? o).
Proof.
  intros [np Hp] [nx Hx]. unfold sort_compare, num_at. rewrite Hp, Hx.
  cbn [js_gt to_number]. destruct (np >? nx).
  - f_equal. lia.
  - apply eq_true_iff_eq. rewrite !Z.ltb_lt. lia.
Qed.

Lemma insert_pivot_sorted (k : str) (o : Z) (p : record) (l : list record) :
  o <> 0 -> has_number k p -> Forall (has_number k) l ->
  StronglySorted (fun a b => in_order o (num_at k a) (num_at k b)) l ->
  StronglySorted (fun a b => in_order o (num_at k a) (num_at k b))
                 (insert_pivot (sort_compare k o) p l).
Proof.
  intros Ho Hp Hall Hs.
  induction Hs as [ | x l Hs IH Hx ]; cbn [insert_pivot].
  - repeat constructor.
  - inversion Hall as [ | ? ? Hnx Hnl ]; subst.
    rewrite (sort_compare_numbers k o p x Hp Hnx).
    assert (Hcases : (0 <? o) = true /\ (o <? 0) = false \/
                     (0 <? o) = false /\ (o <? 0) = true).
    { destruct (0 <? o) eqn:E1, (o <? 0) eqn:E2;
        rewrite ?Z.ltb_lt, ?Z.ltb_ge in *; try lia; auto. }
    destruct (num_at k p >? num_at k x) eqn:Hgt;
      rewrite Z.gtb_ltb in Hgt;
      [ apply Z.ltb_lt in Hgt | apply Z.ltb_ge in Hgt ];
      destruct Hcases as [[H1 H2] | [H1 H2]]; rewrite ?H1, ?H2.
    + constructor; [ apply IH, Hnl | ].
      apply Forall_forall. intros y Hy.
      apply insert_pivot_in in Hy as [-> | Hy].
      * unfold in_order. rewrite H1. lia.
      * rewrite Forall_forall in Hx. apply Hx, Hy.
    + constructor; [ constructor; assumption | ].
      constructor.
      * unfold in_order. rewrite H1. lia.
      * eapply Forall_impl; [ | exact Hx ]. cbv beta. unfold in_order.
        rewrite H1. intros y Hy. lia.
    + constructor; [ constructor; assumption | ].
      constructor.
      * unfold in_order. rewrite H1. lia.
      * eapply Forall_impl; [ | exact Hx ]. cbv beta. unfold in_order.
        rewrite H1. intros y Hy. lia.
    + constructor; [ apply IH, Hnl | ].
      apply Forall_forall. intros y Hy.
      apply insert_pivot_in in Hy as [-> | Hy].
      * unfold in_order. rewrite H1. lia.
      * rewrite Forall_forall in Hx. apply Hx, Hy.
Qed.

Lemma js_sort_sorted (k : str) (o : Z) (l : list record) :
  o <> 0 -> Forall (has_number k) l ->
  StronglySorted (fun a b => in_order o (num_at k a) (num_at k b))
                 (js_sort (sort_compare k o) l).
Proof.
  intros Ho Hall. unfold js_sort.
  assert (G : forall acc,
             Forall (has_number k) acc ->
             StronglySorted (fun a b => in_order o (num_at k a) (num_at k b)) acc ->
             StronglySorted (fun a b => in_order o (num_at k a) (num_at k b))
               (fold_left (fun s p => insert_pivot (sort_compare k o) p s) l acc)).
  { induction Hall as [ | x l Hx Hl IH ]; intros acc Hacc Hs; cbn [fold_left].
    - exact Hs.
    - apply IH.
      + apply Forall_forall. intros y Hy.
        apply insert_pivot_in in Hy as [-> | Hy]; [ exact Hx | ].
        rewrite Forall_forall in Hacc. apply Hacc, Hy.
      + apply insert_pivot_sorted; assumption. }
  apply G; constructor.
Qed.

Lemma sort_pass_ok (res : outcome (list record)) (e : str * Z)
    (rs' : list record) :
  sort_pass res e = Ok rs' ->
  exists mid, res = Ok mid /\ rs' = js_sort (sort_compare (fst e) (snd e)) mid.
Proof.
  unfold sort_pass. destruct res as [ mid | | | ]; cbn [obind];
    try discriminate.
  destruct (comparable _); [ | discriminate ].
  intros H. inversion H. exists mid. split; reflexivity.
Qed.

(** X4. The field listed last in the sort mapping orders the result: when the
    live records all hold a number in that field and its sort order is not
    [0], the records [find] returns are in non-decreasing order of the
    field for a positive sort order and in non-increasing order for a
    negative one, whatever fields are listed before it. *)
Theorem find_sorted_by_last_key (fts : list str) (q : TopLevelOperator)
    (earlier : list (str * Z)) (k : str) (o : Z) (st : store)
    (content : str) (records : list DatabaseRecord) (results : list record) :
  file st = Some content -> read_log content = Ok records ->
  Forall (fun r => type r = E -> has_number k (data r)) records ->
  o <> 0 ->
  fst (find fts q {| sort := Some (earlier ++ [(k, o)]); projection := None |}
            st) = Ok (Whole results) ->
  StronglySorted (fun a b => in_order o (num_at k a) (num_at k b)) results.
Proof.
  intros Hf Hr Hnum Ho H.
  rewrite (find_steps fts q _ st content records Hf Hr) in H. cbn [fst] in H.
  destruct (filter_o (topLevelPredicate fts q)
                     (map data (filter is_live records)))
    as [ kept | | | ] eqn:Ek; try discriminate.
  cbn [obind] in H. unfold sort_all in H. cbn [sort] in H.
  rewrite fold_left_app in H. cbn [fold_left] in H.
  destruct (sort_pass (fold_left sort_pass earlier (Ok kept)) (k, o))
    as [ rs | | | ] eqn:Es; try discriminate.
  cbn [obind shape projection] in H. inversion H; subst.
  apply sort_pass_ok in Es as (mid & Em & ->). cbn [fst snd].
  apply js_sort_sorted; [ exact Ho | ].
  apply Forall_forall. intros d Hd.
  pose proof (Permutation_in d (sort_passes_perm earlier kept mid Em) Hd) as Hk.
  destruct (filter_o_subset _ _ _ Ek d Hk) as [Hl _].
  apply in_map_iff in Hl as (r & <- & Hr').
  apply filter_In in Hr' as [Hr' Hlive].
  rewrite Forall_forall in Hnum. apply (Hnum r Hr').
  unfold is_live in Hlive. destruct (type r); [ reflexivity | discriminate ].
Qed.

Lemma find_sorted_by_last_key_witness :
  let person s n : record :=
    [(chars "name", JStr (chars s)); (chars "age", JNum n)] in
  let records := map (fun r => {| type := E; data := r |})
                     [person "b"%string 3; person "a"%string 1;
                      person "c"%string 2] in
  let st := {| file := Some (write_log records); locks := O |} in
  StronglySorted
    (fun a b => in_order (-1) (num_at (chars "age") a) (num_at (chars "age") b))
    [person "b"%string 3; person "c"%string 2; person "a"%string 1].
Proof.
  intros person records st.
  apply (find_sorted_by_last_key [] (Fields []) [(chars "name", 1)]
           (chars "age") (-1) st (write_log records) records).
  - reflexivity.
  - vm_compute. reflexivity.
  - repeat constructor; intros _; eexists; reflexivity.
  - discriminate.
  - vm_compute. reflexivity.
Defined.

(** ** Operators with several keys, and nested nodes *)

(** X5. An operator object with several keys is decided by the first branch
    that applies, in the order [$eq], [$lt], [$gt], [$in]: [$eq] alone
    decides when it is present; without it, [$lt] decides on a numeric
    field, and [$gt] when there is no [$lt]; on a field that is not a number
    [$lt] and [$gt] are passed over and the answer is that of [$in], or
    [false] without it. *)
Theorem operator_priority (op : QueryOperator) (field : value) :
  (forall v, q_eq op = Some v ->
             operatorToPredicate op field = strict_eq field v) /\
  (forall bound x, q_eq op = None -> q_lt op = Some bound ->
                   field = Some (JNum x) ->
                   operatorToPredicate op field = (x <? bound)) /\
  (forall bound x, q_eq op = None -> q_lt op = None -> q_gt op = Some bound ->
                   field = Some (JNum x) ->
                   operatorToPredicate op field = (x >? bound)) /\
  (q_eq op = None -> typeof_number field = None ->
   operatorToPredicate op field
   = match q_in op with
     | Some candidates => existsb (strict_eq field) candidates
     | None => false
     end).
Proof.
  unfold operatorToPredicate. repeat split.
  - intros v ->. reflexivity.
  - intros bound x -> -> ->. reflexivity.
  - intros bound x -> -> -> ->. reflexivity.
  - intros -> ->. destruct (q_lt op), (q_gt op); reflexivity.
Qed.

Lemma operator_priority_witness :
  let op := {| q_eq := None; q_lt := Some 5; q_gt := Some 0;
               q_in := Some [Some (JStr (chars "x"))] |} in
  operatorToPredicate op (Some (JNum 7)) = false /\
  operatorToPredicate op (Some (JStr (chars "x"))) = true.
Proof.
  intros op. split.
  - apply (proj1 (proj2 (operator_priority op (Some (JNum 7)))) 5 7);
      reflexivity.
  - apply (proj2 (proj2 (proj2 (operator_priority op (Some (JStr (chars "x")))))));
      reflexivity.
Defined.




(** ** Further properties of the mutations *)

Lemma delete_writes (fts : list str) (query : TopLevelOperator)
    (st : store) (content : str) (records : list DatabaseRecord) :
  file st = Some content -> locks st = O -> read_log content = Ok records ->
  Forall (fun r => type r = E -> settles fts query (data r)) records ->
  delete fts query st
  = (Ok tt, {| file := Some (write_log (map (tombstone fts query) records));
               locks := O |}).
Proof.
  intros Hf Hl Hr Hs.
  pose proof (read_log_wf content records Hr) as Hwf.
  unfold delete, bind at 1, lock. rewrite Hl. cbn [Nat.eqb file locks].
  unfold bind at 1, readFromFile at 1, bind at 1, readFile, lift.
  cbn [file]. rewrite Hf. cbv beta iota. rewrite Hr.
  unfold bind at 1.
  rewrite (find_plain fts query {| file := Some content; locks := 1 |}
             content records eq_refl Hr Hs).
  unfold bind, writeToFile, writeFileSync, unlock. cbn [file locks pred].
  f_equal. f_equal. f_equal. f_equal.
  apply map_ext_in. intros r Hin. cbn [stringify_found].
  apply (retag_is_tombstone fts query records r Hwf Hin).
Qed.

Lemma tombstone_twice (fts : list str) (query : TopLevelOperator)
    (r : DatabaseRecord) :
  tombstone fts query (tombstone fts query r) = tombstone fts query r.
Proof.
  unfold tombstone at 2 3. destruct (type r) eqn:Ht.
  - destruct (topLevelPredicate fts query (data r)) as [ [ | ] | | | ] eqn:Hp;
      try reflexivity; unfold tombstone; rewrite Ht, Hp; reflexivity.
  - unfold tombstone. rewrite Ht. reflexivity.
Qed.

Lemma tombstone_settles (fts : list str) (query : TopLevelOperator)
    (records : list DatabaseRecord) :
  Forall (fun r => type r = E -> settles fts query (data r)) records ->
  Forall (fun r => type r = E -> settles fts query (data r))
         (map (tombstone fts query) records).
Proof.
  intros H. apply Forall_map. eapply Forall_impl; [ | exact H ].
  cbv beta. intros r Hr Ht. rewrite tombstone_data.
  apply Hr. exact (proj1 (tombstone_live fts query r Ht)).
Qed.

Lemma tombstone_wf (fts : list str) (query : TopLevelOperator)
    (records : list DatabaseRecord) :
  wf_records records -> wf_records (map (tombstone fts query) records).
Proof.
  unfold wf_records. intros H. apply Forall_map.
  eapply Forall_impl; [ | exact H ]. cbv beta. intros r Hr.
  rewrite tombstone_data. exact Hr.
Qed.

(** X7. [delete] is idempotent: on a log that the reader parses, with the gate
    free and the predicate returning on the live records, a second [delete]
    with the same predicate tree returns and leaves the store exactly as the
    first one left it. *)
Theorem delete_idempotent (fts : list str) (query : TopLevelOperator)
    (st : store) (content : str) (records : list DatabaseRecord) :
  file st = Some content -> locks st = O -> read_log content = Ok records ->
  Forall (fun r => type r = E -> settles fts query (data r)) records ->
  fst (delete fts query st) = Ok tt /\
  delete fts query (snd (delete fts query st))
  = (Ok tt, snd (delete fts query st)).
Proof.
  intros Hf Hl Hr Hs.
  rewrite (delete_writes fts query st content records Hf Hl Hr Hs).
  cbn [fst snd]. split; [ reflexivity | ].
  pose proof (tombstone_wf fts query records (read_log_wf _ _ Hr)) as Hwf'.
  rewrite (delete_writes fts query
             {| file := Some (write_log (map (tombstone fts query) records));
                locks := O |}
             (write_log (map (tombstone fts query) records))
             (map (tombstone fts query) records)
             eq_refl eq_refl (read_log_write_log _ Hwf')
             (tombstone_settles fts query records Hs)).
  rewrite map_map.
  rewrite (map_ext _ _ (tombstone_twice fts query)). reflexivity.
Qed.

Lemma delete_idempotent_witness :
  let a := [(chars "name", JStr (chars "a")); (chars "age", JNum 3)] in
  let b := [(chars "name", JStr (chars "b")); (chars "age", JNum 1)] in
  let records := [ {| type := E; data := a |}; {| type := E; data := b |} ] in
  let query := Fields [(chars "age", op_gt 1)] in
  let st := {| file := Some (write_log records); locks := O |} in
  fst (delete [] query st) = Ok tt /\
  delete [] query (snd (delete [] query st))
  = (Ok tt, snd (delete [] query st)).
Proof.
  intros a b records query st.
  apply (delete_idempotent [] query st (write_log records) records).
  - reflexivity.
  - reflexivity.
  - vm_compute. reflexivity.
  - repeat constructor; intros _; eexists; reflexivity.
Defined.

(** X8. A [delete] that matches no live record changes nothing: on a log as
    the writer leaves it for records whose numbers are safe integers and
    whose keys are no integer indices, with the gate free and a predicate
    that reads the live records' own members, the call returns and the
    store after it is the store before it. *)
Theorem delete_without_match (fts : list str) (query : TopLevelOperator)
    (st : store) (records : list DatabaseRecord) :
  js_records records ->
  file st = Some (write_log records) -> locks st = O ->
  Forall (fun r => type r = E -> query_readable fts query (data r)) records ->
  Forall (fun r => type r = E ->
                   topLevelPredicate fts query (data r) = Ok false) records ->
  delete fts query st = (Ok tt, st).
Proof.
  intros Hjs Hf Hl _ Hno.
  pose proof (js_records_wf records Hjs) as Hwf.
  assert (Hs : Forall (fun r => type r = E -> settles fts query (data r))
                      records).
  { eapply Forall_impl; [ | exact Hno ]. cbv beta.
    intros r Hr Ht. exists false. apply Hr, Ht. }
  rewrite (delete_writes fts query st _ records Hf Hl
             (read_log_write_log records Hwf) Hs).
  assert (Hid : map (tombstone fts query) records = records).
  { rewrite <- (map_id records) at 2. apply map_ext_in.
    intros r Hin. unfold tombstone. destruct (type r) eqn:Ht; [ | reflexivity ].
    rewrite Forall_forall in Hno. rewrite (Hno r Hin Ht). reflexivity. }
  rewrite Hid. destruct st as [f l]. cbn [file locks] in *. subst. reflexivity.
Qed.

Lemma delete_without_match_witness :
  let a := [(chars "name", JStr (chars "a")); (chars "age", JNum 3)] in
  let records := [ {| type := E; data := a |}; {| type := D; data := a |} ] in
  let st := {| file := Some (write_log records); locks := O |} in
  delete [] (Fields [(chars "age", op_lt 1)]) st = (Ok tt, st).
Proof.
  intros a records st.
  apply (delete_without_match [] (Fields [(chars "age", op_lt 1)]) st records).
  - repeat constructor; simpl; intuition discriminate.
  - reflexivity.
  - reflexivity.
  - repeat constructor.
  - repeat constructor; intros _; try reflexivity; discriminate.
Defined.

Lemma insert_writes (r : record) (st : store) (content : str)
    (records : list DatabaseRecord) :
  file st = Some content -> locks st = O -> read_log content = Ok records ->
  insert r st
  = (Ok tt,
     {| file := Some (content ++ line_text {| type := E; data := r |}
                              ++ [newline]);
        locks := O |}).
Proof.
  intros Hf Hl Hr.
  unfold insert, bind, lock, readFromFile, readFile, lift,
    appendFileSync, unlock.
  rewrite Hl. cbn [Nat.eqb file locks]. unfold bind. cbn [file].
  rewrite Hf. cbv beta iota. rewrite Hr. reflexivity.
Qed.

(** X9. What [find] returns after an [insert]: on a log that the reader parses
    and that is empty or ends with a line end, with the gate free, the
    result of [find] after [insert r] is its result before, followed by [r]
    when [r] matches the predicate tree and by nothing when it does not. *)
Theorem find_after_insert (fts : list str) (q : TopLevelOperator)
    (r : record) (st : store) (content : str)
    (records : list DatabaseRecord) :
  file st = Some content -> locks st = O -> read_log content = Ok records ->
  wf_record r ->
  content = [] \/ (exists a, content = a ++ [newline]) ->
  Forall (fun x => type x = E -> settles fts q (data x)) records ->
  settles fts q r ->
  exists before,
    fst (find fts q no_options st) = Ok (Whole before) /\
    fst (find fts q no_options (snd (insert r st)))
    = Ok (Whole (before ++ if is_true (topLevelPredicate fts q r)
                           then [r] else [])).
Proof.
  intros Hf Hl Hr Hwf Hend Hs Hsr.
  exists (filter (fun d => is_true (topLevelPredicate fts q d))
                 (map data (filter is_live records))).
  split.
  - rewrite (find_plain fts q st content records Hf Hr Hs). reflexivity.
  - rewrite (insert_writes r st content records Hf Hl Hr). cbn [snd].
    assert (Hr' : read_log (content ++ line_text {| type := E; data := r |}
                                    ++ [newline])
                  = Ok (records ++ [ {| type := E; data := r |} ])).
    { rewrite (read_log_append content {| type := E; data := r |} Hend Hwf), Hr.
      reflexivity. }
    assert (Hs' : Forall (fun x => type x = E -> settles fts q (data x))
                         (records ++ [ {| type := E; data := r |} ])).
    { apply Forall_app. split; [ exact Hs | ].
      constructor; [ intros _; exact Hsr | constructor ]. }
    rewrite (find_plain fts q
               {| file := Some (content
                                  ++ line_text {| type := E; data := r |}
                                  ++ [newline]);
                  locks := O |} _ _ eq_refl Hr' Hs'). cbn [fst].
    rewrite filter_app, map_app, filter_app. reflexivity.
Qed.

Lemma find_after_insert_witness :
  let a := [(chars "age", JNum 3)] in
  let r := [(chars "age", JNum 7)] in
  let q := Fields [(chars "age", op_gt 5)] in
  let st := {| file := Some (write_log [ {| type := E; data := a |} ]);
               locks := O |} in
  exists before,
    fst (find [] q no_options st) = Ok (Whole before) /\
    fst (find [] q no_options (snd (insert r st)))
    = Ok (Whole (before ++ if is_true (topLevelPredicate [] q r)
                           then [r] else [])).
Proof.
  intros a r q st.
  apply (find_after_insert [] q r st
           (write_log [ {| type := E; data := a |} ])
           [ {| type := E; data := a |} ]).
  - reflexivity.
  - reflexivity.
  - vm_compute. reflexivity.
  - repeat constructor; simpl; intuition discriminate.
  - right. eexists. unfold write_log. reflexivity.
  - repeat constructor; intros _; eexists; reflexivity.
  - eexists. reflexivity.
Defined.

Lemma find_keeps_store (fts : list str) (q : TopLevelOperator)
    (options : QueryOptions) (st : store) :
  snd (find fts q options st) = st.
Proof.
  unfold find, readFromFile, readFile, bind, lift, ret.
  destruct (file st) as [ content | ]; [ | reflexivity ].
  destruct (read_log content) as [ records | e | | ]; try reflexivity.
  destruct (filter_o _ _) as [ results | e | | ]; try reflexivity.
  destruct (match sort options with
            | Some entries => fold_left sort_pass entries (Ok results)
            | None => Ok results
            end) as [ sorted | e | | ]; try reflexivity.
  destruct (projection options); reflexivity.
Qed.

Lemma find_file_only (fts : list str) (q : TopLevelOperator)
    (options : QueryOptions) (st1 st2 : store) :
  file st1 = file st2 ->
  fst (find fts q options st1) = fst (find fts q options st2).
Proof.
  intros H. unfold find, readFromFile, readFile, lift, ret, bind.
  rewrite H. destruct (file st2) as [ content | ]; [ | reflexivity ].
  destruct (read_log content) as [ records | | | ]; try reflexivity.
  destruct (filter_o _ _) as [ results | | | ]; try reflexivity.
  destruct (match sort options with
            | Some entries => fold_left sort_pass entries (Ok results)
            | None => Ok results
            end) as [ sorted | | | ]; try reflexivity.
  destruct (projection options); reflexivity.
Qed.

Lemma gate_held (fts : list str) (q : TopLevelOperator) (r : record)
    (st : store) :
  locks st <> O ->
  insert r st = (Hang, {| file := file st; locks := S (locks st) |}) /\
  delete fts q st = (Hang, {| file := file st; locks := S (locks st) |}).
Proof.
  intros Hl. unfold insert, delete, bind, lock.
  destruct (locks st) as [ | n ]; [ congruence | ]. split; reflexivity.
Qed.

Lemma delete_outcome (fts : list str) (q : TopLevelOperator) (st : store) :
  locks st = O ->
  (exists st', delete fts q st = (Ok tt, st')) \/
  (exists o, (forall u, o <> Ok u) /\
             delete fts q st = (o, {| file := file st; locks := 1 |})).
Proof.
  intros Hl. unfold delete, lock, readFromFile, readFile, lift, bind.
  rewrite Hl. cbn [Nat.eqb file locks].
  destruct (file st) as [ content | ].
  - destruct (read_log content) as [ records | e' | | ].
    + pose proof (find_keeps_store fts q no_options
                    {| file := Some content; locks := 1 |}) as Hk.
      destruct (find fts q no_options {| file := Some content; locks := 1 |})
        as [o st2]. cbn [snd] in Hk. subst st2.
      destruct o as [ f | e' | | ].
      * left. eexists. reflexivity.
      * right. exists (Throw e'). split; [ discriminate | reflexivity ].
      * right. exists Hang. split; [ discriminate | reflexivity ].
      * right. exists Unmodelled. split; [ discriminate | reflexivity ].
    + right. exists (Throw e'). split; [ discriminate | reflexivity ].
    + right. exists Hang. split; [ discriminate | reflexivity ].
    + right. exists Unmodelled. split; [ discriminate | reflexivity ].
  - right. exists (Throw ENOENT). split; [ discriminate | reflexivity ].
Qed.

Lemma insert_outcome (r : record) (st : store) :
  locks st = O ->
  (exists st', insert r st = (Ok tt, st')) \/
  (exists o, (forall u, o <> Ok u) /\
             insert r st = (o, {| file := file st; locks := 1 |})).
Proof.
  intros Hl. unfold insert, lock, readFromFile, readFile, lift, bind.
  rewrite Hl. cbn [Nat.eqb file locks].
  destruct (file st) as [ content | ].
  - destruct (read_log content) as [ records | e' | | ].
    + left. eexists. reflexivity.
    + right. exists (Throw e'). split; [ discriminate | reflexivity ].
    + right. exists Hang. split; [ discriminate | reflexivity ].
    + right. exists Unmodelled. split; [ discriminate | reflexivity ].
  - right. exists (Throw ENOENT). split; [ discriminate | reflexivity ].
Qed.

Lemma insert_throw_state (r : record) (st : store) (e : exn) :
  locks st = O -> fst (insert r st) = Throw e ->
  snd (insert r st) = {| file := file st; locks := 1 |}.
Proof.
  intros Hl H.
  destruct (insert_outcome r st Hl) as [[st' E] | (o & _ & E)];
    rewrite E in *; [ discriminate | reflexivity ].
Qed.

Lemma delete_throw_state (fts : list str) (q : TopLevelOperator)
    (st : store) (e : exn) :
  locks st = O -> fst (delete fts q st) = Throw e ->
  snd (delete fts q st) = {| file := file st; locks := 1 |}.
Proof.
  intros Hl H.
  destruct (delete_outcome fts q st Hl) as [[st' E] | (o & _ & E)];
    rewrite E in *; [ discriminate | reflexivity ].
Qed.

(** X10. A mutation that throws never writes and never releases the gate: after
    an [insert] or a [delete] that throws (the file is missing, a line does
    not parse, the predicate throws), the file is as before and the gate is
    held, so that every later [insert] and [delete], awaited in turn, never
    settles and leaves the file as it is, while [find], which takes no
    gate, answers as before. *)
Theorem failed_mutation_holds_gate (fts : list str) (q : TopLevelOperator)
    (r : record) (st st1 : store) (e : exn) :
  locks st = O ->
  (fst (insert r st) = Throw e /\ st1 = snd (insert r st)) \/
  (fst (delete fts q st) = Throw e /\ st1 = snd (delete fts q st)) ->
  file st1 = file st /\ isLocked st1 = true /\
  forall q' r' options,
    fst (insert r' st1) = Hang /\ file (snd (insert r' st1)) = file st /\
    fst (delete fts q' st1) = Hang /\
    file (snd (delete fts q' st1)) = file st /\
    fst (find fts q' options st1) = fst (find fts q' options st).
Proof.
  intros Hl Hthrow.
  assert (Hst : st1 = {| file := file st; locks := 1 |}).
  { destruct Hthrow as [[H ->] | [H ->]].
    - exact (insert_throw_state r st e Hl H).
    - exact (delete_throw_state fts q st e Hl H). }
  subst st1.
  split; [ reflexivity | ]. split; [ reflexivity | ].
  intros q' r' options.
  destruct (gate_held fts q' r' {| file := file st; locks := 1 |})
    as [Hi Hd]; [ discriminate | ].
  rewrite Hi, Hd. cbn [fst snd file].
  repeat split.
  apply find_file_only. reflexivity.
Qed.

Lemma failed_mutation_holds_gate_witness :
  let st := {| file := None; locks := O |} in
  let st1 := snd (insert [] st) in
  file st1 = file st /\ isLocked st1 = true /\
  forall q' r' options,
    fst (insert r' st1) = Hang /\ file (snd (insert r' st1)) = file st /\
    fst (delete [] q' st1) = Hang /\
    file (snd (delete [] q' st1)) = file st /\
    fst (find [] q' options st1) = fst (find [] q' options st).
Proof.
  intros st st1.
  apply (failed_mutation_holds_gate [] (Fields []) [] st st1 ENOENT).
  - reflexivity.
  - left. split; reflexivity.
Defined.

(** ** Further properties of the reader *)

Lemma map_o_each {A B : Type} (f : A -> outcome B) (l : list A)
    (ys : list B) :
  map_o f l = Ok ys -> forall x, In x l -> exists y, f x = Ok y.
Proof.
  revert ys. induction l as [ | a l IH ]; intros ys H x Hx; [ destruct Hx | ].
  cbn [map_o] in H. destruct (f a) as [ b | | | ] eqn:Ea; try discriminate.
  destruct (map_o f l) as [ bs | | | ]; try discriminate.
  destruct Hx as [<- | Hx]; [ exists b; exact Ea | exact (IH bs eq_refl x Hx) ].
Qed.

Lemma read_log_each (content : str) (records : list DatabaseRecord)
    (line : str) :
  read_log content = Ok records ->
  In line (split_lines content) -> not_blank line = true ->
  exists r, parse_line line = Ok r.
Proof.
  intros H Hin Hnb. apply (map_o_each _ _ _ H). apply filter_In. auto.
Qed.

(** X11. One line that does not parse blocks the whole store, also when it is a
    tombstone: if [JSON.parse] throws on the payload of some non-blank line
    of the log, then [find] does not return, whatever the predicate tree
    and the options, and [insert] and [delete] do not return either and
    leave the file as it is. *)
Theorem unparsable_line_blocks (fts : list str) (q : TopLevelOperator)
    (r : record) (st : store) (content line : str) :
  file st = Some content -> locks st = O ->
  In line (split_lines content) -> not_blank line = true ->
  parse_line line = Throw SyntaxError ->
  (forall options v, fst (find fts q options st) <> Ok v) /\
  (forall u, fst (insert r st) <> Ok u) /\
  file (snd (insert r st)) = Some content /\
  (forall u, fst (delete fts q st) <> Ok u) /\
  file (snd (delete fts q st)) = Some content.
Proof.
  intros Hf Hl Hin Hnb Hbad.
  assert (Hno : forall records, read_log content <> Ok records).
  { intros records H.
    destruct (read_log_each content records line H Hin Hnb) as [rec Hrec].
    congruence. }
  split; [ | split; [ | split; [ | split ] ] ].
  - intros options v. unfold find, readFromFile, readFile, lift, ret, bind.
    rewrite Hf. destruct (read_log content) as [ records | | | ];
      [ destruct (Hno records eq_refl) | discriminate .. ].
  - intros u. unfold insert, lock, readFromFile, readFile, lift, bind.
    rewrite Hl. cbn [Nat.eqb file locks]. rewrite Hf.
    destruct (read_log content) as [ records | | | ];
      [ destruct (Hno records eq_refl) | discriminate .. ].
  - unfold insert, lock, readFromFile, readFile, lift, bind.
    rewrite Hl. cbn [Nat.eqb file locks]. rewrite Hf.
    destruct (read_log content) as [ records | | | ];
      [ destruct (Hno records eq_refl) | reflexivity .. ].
  - intros u. unfold delete, lock, readFromFile, readFile, lift, bind.
    rewrite Hl. cbn [Nat.eqb file locks]. rewrite Hf.
    destruct (read_log content) as [ records | | | ];
      [ destruct (Hno records eq_refl) | discriminate .. ].
  - unfold delete, lock, readFromFile, readFile, lift, bind.
    rewrite Hl. cbn [Nat.eqb file locks]. rewrite Hf.
    destruct (read_log content) as [ records | | | ];
      [ destruct (Hno records eq_refl) | reflexivity .. ].
Qed.

Lemma unparsable_line_blocks_witness :
  let content := chars "E{}" ++ [newline] ++ chars "D{" ++ [newline] in
  let st := {| file := Some content; locks := O |} in
  (forall options v, fst (find [] (Fields []) options st) <> Ok v) /\
  (forall u, fst (insert [] st) <> Ok u) /\
  file (snd (insert [] st)) = Some content /\
  (forall u, fst (delete [] (Fields []) st) <> Ok u) /\
  file (snd (delete [] (Fields []) st)) = Some content.
Proof.
  intros content st.
  apply (unparsable_line_blocks [] (Fields []) [] st content (chars "D{")).
  - reflexivity.
  - reflexivity.
  - vm_compute. right. left. reflexivity.
  - reflexivity.
  - reflexivity.
Defined.

Lemma blank_line (ws : str) :
  forallb is_js_space ws = true -> not_blank ws = false.
Proof.
  intros H. unfold not_blank, trim.
  assert (G : trim_start ws = []).
  { induction ws as [ | c ws IH ]; [ reflexivity | ].
    cbn [forallb] in H. apply andb_true_iff in H as [Hc Hw].
    cbn [trim_start]. rewrite Hc. exact (IH Hw). }
  rewrite G. reflexivity.
Qed.

(** X12. Lines of white space are not entries: a log reads the same with or
    without a blank or white-space line between two lines, at its start, or
    after its last line end. *)
Theorem reader_skips_blank_lines (a b ws : str) :
  forallb is_js_space ws = true -> has_newline ws = false ->
  read_log (a ++ newline :: ws ++ newline :: b) = read_log (a ++ newline :: b) /\
  read_log (ws ++ newline :: b) = read_log b /\
  read_log (a ++ newline :: ws) = read_log a.
Proof.
  intros Hws Hnl. unfold read_log.
  pose proof (blank_line ws Hws) as Hb.
  pose proof (split_lines_one ws Hnl) as Hone.
  split; [ | split ].
  - rewrite (split_lines_app a (ws ++ newline :: b)), (split_lines_app ws b),
      (split_lines_app a b), Hone, !filter_app.
    cbn [filter]. rewrite Hb. reflexivity.
  - rewrite (split_lines_app ws b), Hone, filter_app.
    cbn [filter]. rewrite Hb. reflexivity.
  - rewrite (split_lines_app a ws), Hone, filter_app.
    cbn [filter]. rewrite Hb, app_nil_r. reflexivity.
Qed.

Lemma reader_skips_blank_lines_witness :
  let a := chars "E{}" in
  let b := chars "D{}" in
  let ws := [" "%char; "009"%char] in
  read_log (a ++ newline :: ws ++ newline :: b) = read_log (a ++ newline :: b) /\
  read_log (ws ++ newline :: b) = read_log b /\
  read_log (a ++ newline :: ws) = read_log a.
Proof.
  intros a b ws.
  apply (reader_skips_blank_lines a b ws); reflexivity.
Defined.

(** ** The earlier versions of [find] *)

Lemma starts_with_E_cons (line : str) :
  starts_with_E line = true -> exists t, line = "E"%char :: t.
Proof.
  unfold starts_with_E. destruct line as [ | c t ]; cbn [strip_prefix];
    [ discriminate | ].
  destruct (Ascii.eqb "E"%char c) eqn:Ec; [ | discriminate ].
  apply Ascii.eqb_eq in Ec. subst c. intros _. exists t. reflexivity.
Qed.

Lemma starts_with_E_not_blank (line : str) :
  starts_with_E line = true -> not_blank line = true.
Proof.
  intros H. destruct (starts_with_E_cons line H) as [t ->].
  apply not_blank_head. reflexivity.
Qed.

Lemma parse_line_payload (line : str) (r : DatabaseRecord) :
  parse_line line = Ok r ->
  parse_payload line = Ok (data r) /\
  is_live r = starts_with_E line.
Proof.
  unfold parse_line, parse_payload, starts_with_E, is_live.
  destruct (strip_prefix ["E"%char] line) as [ rest | ];
    destruct (JSON_parse (tl line)) as [ [ | | | | | members ] | ];
    try discriminate;
    try (destruct (beyond_model (tl line)); discriminate);
    intros H; injection H as <-; split; reflexivity.
Qed.

Lemma live_lines (lines : list str) (records : list DatabaseRecord) :
  map_o parse_line (filter not_blank lines) = Ok records ->
  map_o parse_payload (filter starts_with_E lines)
  = Ok (map data (filter is_live records)).
Proof.
  revert records. induction lines as [ | line lines IH ]; intros records H.
  - cbn [filter map_o] in *. inversion H. reflexivity.
  - cbn [filter] in *. destruct (not_blank line) eqn:Hnb.
    + cbn [map_o] in H.
      destruct (parse_line line) as [ r | | | ] eqn:Ep; try discriminate.
      destruct (map_o parse_line (filter not_blank lines)) as [ rs | | | ];
        try discriminate.
      cbn [obind] in H. inversion H; subst.
      destruct (parse_line_payload line r Ep) as [Hp Hl].
      cbn [filter]. rewrite Hl.
      destruct (starts_with_E line).
      * cbn [map_o map]. rewrite Hp, (IH rs eq_refl). reflexivity.
      * exact (IH rs eq_refl).
    + destruct (starts_with_E line) eqn:Hs.
      * apply starts_with_E_not_blank in Hs. congruence.
      * exact (IH records H).
Qed.

Lemma read_live_of_read_log (content : str) (records : list DatabaseRecord) :
  read_log content = Ok records ->
  read_live content = Ok (map data (filter is_live records)).
Proof. apply live_lines. Qed.

(** X13. The three versions of [find] agree on every log that the reader of the
    last version parses: the first version returns the records that the
    last one returns without options, the middle one what the last one
    returns with the same options, and none of them changes the store. *)
Theorem find_versions_agree (fts : list str) (q : TopLevelOperator)
    (options : QueryOptions) (st : store) (content : str)
    (records : list DatabaseRecord) :
  file st = Some content -> read_log content = Ok records ->
  whole (fst (Exercise13.find fts q st)) = fst (find fts q no_options st) /\
  fst (Part000.find fts q options st) = fst (find fts q options st) /\
  snd (Exercise13.find fts q st) = st /\
  snd (Part000.find fts q options st) = st.
Proof.
  intros Hf Hr.
  pose proof (read_live_of_read_log content records Hr) as Hl.
  unfold Exercise13.find, Part000.find, find, readFromFile, readFile, lift,
    ret, whole, bind.
  rewrite Hf, Hr, Hl. cbn [no_options sort projection].
  destruct (filter_o _ _) as [ kept | | | ]; cbn [fst snd obind].
  - destruct (match sort options with
              | Some entries => fold_left sort_pass entries (Ok kept)
              | None => Ok kept
              end) as [ rs | | | ]; cbn [fst snd];
      try (repeat split; reflexivity).
    destruct (projection options); repeat split; reflexivity.
  - repeat split; reflexivity.
  - repeat split; reflexivity.
  - repeat split; reflexivity.
Qed.

Lemma find_versions_agree_witness :
  let person s n : record :=
    [(chars "name", JStr (chars s)); (chars "age", JNum n)] in
  let records := [ {| type := E; data := person "a"%string 3 |};
                   {| type := D; data := person "b"%string 5 |};
                   {| type := E; data := person "c"%string 1 |} ] in
  let st := {| file := Some (write_log records); locks := O |} in
  let q := Fields [(chars "age", op_gt 0)] in
  let options := {| sort := Some [(chars "age", 1)]; projection := None |} in
  fst (Exercise13.find [] q st)
  = Ok [person "a"%string 3; person "c"%string 1] /\
  fst (Part000.find [] q options st)
  = Ok (Whole [person "c"%string 1; person "a"%string 3]).
Proof.
  intros person records st q options.
  destruct (find_versions_agree [] q options st (write_log records) records)
    as (H1 & H2 & _).
  - reflexivity.
  - vm_compute. reflexivity.
  - split.
    + destruct (fst (Exercise13.find [] q st)) as [ rs | | | ] eqn:Ef;
        cbn [whole obind] in H1; try (vm_compute in H1; discriminate).
      vm_compute in H1. inversion H1. reflexivity.
    + rewrite H2. vm_compute. reflexivity.
Defined.

Lemma read_live_skips (a b junk : str) :
  has_newline junk = false -> starts_with_E junk = false ->
  read_live (a ++ newline :: junk ++ newline :: b)
  = read_live (a ++ newline :: b).
Proof.
  intros Hnl Hs. unfold read_live.
  rewrite (split_lines_app a (junk ++ newline :: b)), (split_lines_app junk b),
    (split_lines_app a b), (split_lines_one junk Hnl), !filter_app.
  cbn [filter]. rewrite Hs. reflexivity.
Qed.

(** X14. The earlier versions of [find] never parse a line that does not start
    with [E]: with any such line added to the log, whatever its text, both
    return what they return without it. *)
Theorem earlier_find_skips_other_lines (fts : list str)
    (q : TopLevelOperator) (options : QueryOptions) (a b junk : str)
    (n m : nat) :
  has_newline junk = false -> starts_with_E junk = false ->
  let st := {| file := Some (a ++ newline :: b); locks := n |} in
  let st' := {| file := Some (a ++ newline :: junk ++ newline :: b);
                locks := m |} in
  fst (Exercise13.find fts q st') = fst (Exercise13.find fts q st) /\
  fst (Part000.find fts q options st') = fst (Part000.find fts q options st).
Proof.
  intros Hnl Hs st st'.
  unfold Exercise13.find, Part000.find, readFile, lift, ret, bind, st, st'.
  cbn [file]. rewrite (read_live_skips a b junk Hnl Hs).
  destruct (read_live (a ++ newline :: b)) as [ contents | | | ];
    [ | split; reflexivity .. ].
  destruct (filter_o _ _) as [ kept | | | ]; [ | split; reflexivity .. ].
  split; [ reflexivity | ].
  destruct (match sort options with
            | Some entries => fold_left sort_pass entries (Ok kept)
            | None => Ok kept
            end) as [ rs | | | ]; try reflexivity.
  destruct (projection options); reflexivity.
Qed.

Lemma earlier_find_skips_other_lines_witness :
  let a := chars "E{}" in
  let b := chars "E{}" in
  let junk := chars "D{not json" in
  let st := {| file := Some (a ++ newline :: b); locks := O |} in
  let st' := {| file := Some (a ++ newline :: junk ++ newline :: b);
                locks := O |} in
  fst (Exercise13.find [] (Fields []) st')
  = fst (Exercise13.find [] (Fields []) st) /\
  fst (Part000.find [] (Fields []) no_options st')
  = fst (Part000.find [] (Fields []) no_options st).
Proof.
  intros a b junk st st'.
  apply (earlier_find_skips_other_lines [] (Fields []) no_options a b junk
           O O); reflexivity.
Defined.

(** ** Searching for the text of a field, and querying a missing field *)

(** X15. A search for the whole text of a configured field, in any letter
    case, matches the record, when that text has no pattern character and
    begins and ends with a word character and the record's full-text
    fields can be read and turned into text.  The text of a missing field
    is [undefined]: a search for [undefined] matches every such record that
    lacks a configured field whose name no object inherits. *)
Theorem text_search_whole_field (fts : list str) (data : record)
    (field search : str) :
  In field fts -> plain_search search = true -> text_readable fts data ->
  map canonicalize (to_string (get data field)) = map canonicalize search ->
  matches fts (Text search) data.
Proof.
  intros Hf Hp _ Hc. destruct (plain_search_parts search Hp) as (Hs & Hh & Hl).
  unfold matches. cbn [topLevelPredicate].
  rewrite (RegExp_new_text_pattern search Hs). cbn [obind].
  rewrite (some_pure (fun text =>
             RegExp_test (WordB :: map Lit search ++ [WordB])
                         (to_string text))).
  f_equal. apply existsb_exists. exists (get data field). split.
  - apply in_map_iff. exists field. auto.
  - apply (test_whole_word search _ Hh Hl).
    exists [], (to_string (get data field)), [].
    rewrite app_nil_r. repeat split; [ exact Hc ].
Qed.

Lemma text_search_whole_field_witness :
  let data := [(chars "name", JStr (chars "Ann"))] in
  matches [chars "name"; chars "notes"] (Text (chars "UNDEFINED")) data /\
  matches [chars "name"; chars "notes"] (Text (chars "ann")) data.
Proof.
  intros data. split.
  - refine (text_search_whole_field [chars "name"; chars "notes"] data
              (chars "notes") (chars "UNDEFINED") _ _ _ _);
      [ right; left; reflexivity | reflexivity | repeat constructor
      | reflexivity ].
  - refine (text_search_whole_field [chars "name"; chars "notes"] data
              (chars "name") (chars "ann") _ _ _ _);
      [ left; reflexivity | reflexivity | repeat constructor | reflexivity ].
Defined.

(** X16. A query on a field that the record lacks fails, unless it asks for
    [undefined]: when the operator for the field has no [$eq: undefined] and
    no [$in] with [undefined] among its candidates, the query is [false] on
    the record, whatever its other fields say. *)
Theorem query_on_missing_field (query : Query) (data : record) (key : str)
    (op : QueryOperator) :
  In (key, op) query -> get data key = None ->
  q_eq op <> Some None ->
  (forall candidates, q_in op = Some candidates -> ~ In None candidates) ->
  queryToPredicate query data = false.
Proof.
  intros Hin Hget Heq Hcand.
  destruct (queryToPredicate query data) eqn:Hq; [ | reflexivity ].
  exfalso. unfold queryToPredicate in Hq. rewrite forallb_forall in Hq.
  specialize (Hq (key, op) Hin). cbn [fst snd] in Hq. rewrite Hget in Hq.
  unfold operatorToPredicate in Hq. cbn [typeof_number] in Hq.
  destruct (q_eq op) as [ [ v | ] | ].
  - discriminate Hq.
  - apply Heq. reflexivity.
  - assert (Hin' : match q_in op with
                   | Some candidates => existsb (strict_eq None) candidates
                   | None => false
                   end = true).
    { destruct (q_lt op), (q_gt op); exact Hq. }
    destruct (q_in op) as [ candidates | ]; [ | discriminate ].
    apply existsb_exists in Hin' as (v & Hv & He).
    destruct v as [ v | ]; [ discriminate He | ].
    exact (Hcand candidates eq_refl Hv).
Qed.

Lemma query_on_missing_field_witness :
  queryToPredicate [(chars "name", op_eq (Some (JStr (chars "a"))));
                    (chars "age", op_gt 1)]
                   [(chars "name", JStr (chars "a"))] = false.
Proof.
  apply (query_on_missing_field _ _ (chars "age") (op_gt 1)).
  - right. left. reflexivity.
  - reflexivity.
  - discriminate.
  - intros candidates H. discriminate H.
Defined.

(** ** An invariant of the store *)

Lemma write_log_terminated (records : list DatabaseRecord) :
  terminated (write_log records).
Proof. right. eexists. unfold write_log. reflexivity. Qed.

(** X17. The mutations keep the store healthy: from a store whose gate is free
    and whose file is a log that the reader parses and that is empty or
    ends with a line end, [insert] of a record returns and leaves such a
    store, and so does [delete] when the predicate returns on the live
    records; so any run of mutations that return can be followed by
    another. *)
Theorem mutations_keep_healthy (fts : list str) (q : TopLevelOperator)
    (r : record) (st : store) :
  healthy st -> wf_record r ->
  (fst (insert r st) = Ok tt /\ healthy (snd (insert r st))) /\
  ((forall content records,
      file st = Some content -> read_log content = Ok records ->
      Forall (fun x => type x = E -> settles fts q (data x)) records) ->
   fst (delete fts q st) = Ok tt /\ healthy (snd (delete fts q st))).
Proof.
  intros (Hl & content & records & Hf & Hterm & Hr) Hwf. split.
  - rewrite (insert_writes r st content records Hf Hl Hr). cbn [fst snd].
    split; [ reflexivity | ]. split; [ reflexivity | ].
    exists (content ++ line_text {| type := E; data := r |} ++ [newline]),
           (records ++ [ {| type := E; data := r |} ]).
    split; [ reflexivity | ]. split.
    + right. exists (content ++ line_text {| type := E; data := r |}).
      rewrite <- app_assoc. reflexivity.
    + rewrite (read_log_append content {| type := E; data := r |} Hterm Hwf), Hr.
      reflexivity.
  - intros Hs. specialize (Hs content records Hf Hr).
    rewrite (delete_writes fts q st content records Hf Hl Hr Hs).
    cbn [fst snd]. split; [ reflexivity | ]. split; [ reflexivity | ].
    exists (write_log (map (tombstone fts q) records)),
           (map (tombstone fts q) records).
    split; [ reflexivity | ]. split; [ apply write_log_terminated | ].
    apply read_log_write_log, tombstone_wf, (read_log_wf content), Hr.
Qed.

Lemma mutations_keep_healthy_witness :
  let a := [(chars "age", JNum 3)] in
  let st := {| file := Some (write_log [ {| type := E; data := a |} ]);
               locks := O |} in
  (fst (insert [(chars "age", JNum 7)] st) = Ok tt /\
   healthy (snd (insert [(chars "age", JNum 7)] st))) /\
  (fst (delete [] (Fields []) st) = Ok tt /\
   healthy (snd (delete [] (Fields []) st))).
Proof.
  intros a st.
  destruct (mutations_keep_healthy [] (Fields []) [(chars "age", JNum 7)] st)
    as [H1 H2].
  - split; [ reflexivity | ].
    exists (write_log [ {| type := E; data := a |} ]),
           [ {| type := E; data := a |} ].
    split; [ reflexivity | ].
    split; [ right; eexists; unfold write_log; reflexivity | ].
    vm_compute. reflexivity.
  - repeat constructor; simpl; intuition discriminate.
  - split; [ exact H1 | ]. apply H2.
    intros content records _ _. apply Forall_forall.
    intros x _ _. eexists. reflexivity.
Defined.
